(** * Chunked-messages store and stream-chat helpers of the coral_web interface

    A shallow embedding of
    - [src/stores/slices/chunkedMessagesSlice.ts] (the dual-stream
      feedback store: chunking, reveal cursors, per-chunk feedback, the
      active text selection), and
    - [src/hooks/streamChat.ts] (the conversation-cache update and the
      retry predicate of the chat mutation),
    followed by the properties of the specification that concern them.

    Conventions of the embedding:
    - a JavaScript string is the list of its UTF-16 code units, so that
      [length] is [String.prototype.length] and [substring] cuts where the
      engine cuts;
    - a JavaScript [number] used as an index, a size or a clock reading
      is an integer of [Z];
    - every [set (state => ...)] of the store is a function from the
      aggregate [chunkedMessagesState] to the next aggregate;
    - [Date.now ()] and [new Date ().toISOString ()] are read by the
      caller and passed in as the argument [now]. *)

From Stdlib Require Import ZArith Lia.
From stdpp Require Import base option list gmap strings.

Local Open Scope Z_scope.

(** ** JavaScript strings *)

Abbreviation jsstring := (list Z).

Module JsString.

(** [clamp len x]: an index argument of [substring] is brought into
    [0 .. len]. *)
Definition clamp (len x : Z) : Z := Z.max 0 (Z.min x len).

(** [text.substring (a, b)]: both arguments are clamped to the string,
    and swapped when the first exceeds the second. *)
Definition substring (text : jsstring) (a b : Z) : jsstring :=
  let len := Z.of_nat (length text) in
  let a' := clamp len a in
  let b' := clamp len b in
  let lo := Z.min a' b' in
  let hi := Z.max a' b' in
  take (Z.to_nat (hi - lo)) (drop (Z.to_nat lo) text).

(** Truthiness of a string: only the empty string is falsy. *)
Definition truthy (text : jsstring) : bool :=
  match text with
  | [] => false
  | _ :: _ => true
  end.

End JsString.

(** ** JavaScript arrays that are written by index

    [items] are the slots [0 .. length - 1]; a slot holding [None] is a
    hole (it reads as [undefined]).  [props] are the own properties whose
    key is not an array index: a negative key, or one above [2^32 - 2],
    the largest index of the language.  Writing [a[-1] = v] or
    [a[4294967295] = v] creates such a property and leaves [length]
    alone. *)

Record jsarray (A : Type) : Type := JsArray {
  items : list (option A);
  props : gmap Z A
}.
Arguments JsArray {A} _ _.
Arguments items {A} _.
Arguments props {A} _.

Module JsArray.
Section Ops.
Context {A : Type}.

(** [Array (count).fill (null).map (() => v)] *)
Definition filled (count : nat) (v : A) : jsarray A :=
  JsArray (replicate count (Some v)) ∅.

(** [[...a]]: the slots are copied, the other properties are not. *)
Definition spread (a : jsarray A) : jsarray A :=
  JsArray (items a) ∅.

Definition len (a : jsarray A) : Z := Z.of_nat (length (items a)).

(** The largest array index, [2^32 - 2]. *)
Definition maxIndex : Z := 4294967294.

(** The keys that name a slot of [a]: the array indices.  An array of
    the engine has at most [2^32 - 1] slots, so that a key below the
    length is an index. *)
Definition is_slot (a : jsarray A) (k : Z) : bool :=
  (0 <=? k) && ((k <? len a) || (k <=? maxIndex)).

(** [a[k] = v].  Inside the array the slot is replaced; at an index
    past its end the array grows to [k + 1] slots, with holes in
    between; any other key becomes a property. *)
Definition set (a : jsarray A) (k : Z) (v : A) : jsarray A :=
  if is_slot a k then
    if k <? len a then
      JsArray (<[Z.to_nat k := Some v]> (items a)) (props a)
    else
      JsArray (items a ++ replicate (Z.to_nat (k - len a)) None ++ [Some v])
              (props a)
  else
    JsArray (items a) (<[k := v]> (props a)).

(** [a[k]], [None] standing for [undefined]. *)
Definition get (a : jsarray A) (k : Z) : option A :=
  if is_slot a k then mjoin (items a !! Z.to_nat k) else props a !! k.

End Ops.
End JsArray.

(** [xs[k]] for an array that is only ever built by [push]. *)
Definition nth_chunk (xs : list jsstring) (k : Z) : option jsstring :=
  if 0 <=? k then xs !! Z.to_nat k else None.

(** ** The state of the slice *)

(** ['stream1' | 'stream2'] *)
Inductive StreamId : Type := Stream1 | Stream2.

#[global] Instance StreamId_eq_dec : EqDecision StreamId.
Proof. solve_decision. Defined.

(** An object with one field per stream. *)
Record PerStream (A : Type) : Type := Streams {
  stream1 : A;
  stream2 : A
}.
Arguments Streams {A} _ _.
Arguments stream1 {A} _.
Arguments stream2 {A} _.

(** [obj[streamId]] *)
Definition at_stream {A} (obj : PerStream A) (s : StreamId) : A :=
  match s with
  | Stream1 => stream1 obj
  | Stream2 => stream2 obj
  end.

(** [{ ...obj, [streamId]: v }] *)
Definition with_stream {A} (obj : PerStream A) (s : StreamId) (v : A)
  : PerStream A :=
  match s with
  | Stream1 => Streams v (stream2 obj)
  | Stream2 => Streams (stream1 obj) v
  end.

Inductive Rating : Type := positive | negative.

(** [ChunkFeedback]: every field is optional. *)
Record ChunkFeedback : Type := Feedback {
  rating : option Rating;
  comment : option jsstring;
  fb_selectedText : option jsstring;
  timestamp : option Z
}.

(** The object literal [{}]. *)
Definition emptyFeedback : ChunkFeedback := Feedback None None None None.

(** [{ ...chunkFeedback, timestamp: now }] *)
Definition withTimestamp (chunkFeedback : ChunkFeedback) (now : Z)
  : ChunkFeedback :=
  Feedback (rating chunkFeedback) (comment chunkFeedback)
           (fb_selectedText chunkFeedback) (Some now).

Record ActiveFeedback : Type := Active {
  streamId : option StreamId;
  chunkIndex : option Z
}.

(** [chunkedMessagesState].  The last two fields are declared as always
    present, but [resetEverything] builds the aggregate without them:
    [None] is the missing field. *)
Record chunkedMessagesState : Type := State {
  responses : PerStream jsstring;
  chunks : PerStream (list jsstring);
  feedback : PerStream (jsarray ChunkFeedback);
  currentChunkIndices : PerStream Z;
  isComplete : bool;
  isChunked : bool;
  selectedText : option jsstring;
  activeFeedback : option ActiveFeedback
}.

Definition INITIAL_STATE : chunkedMessagesState :=
  {| responses := Streams [] [];
     chunks := Streams [] [];
     feedback := Streams (JsArray [] ∅) (JsArray [] ∅);
     currentChunkIndices := Streams 0 0;
     isComplete := false;
     isChunked := false;
     selectedText := Some [];
     activeFeedback := Some (Active None None) |}.

(** [createEmptyFeedback (count)] *)
Definition createEmptyFeedback (count : nat) : jsarray ChunkFeedback :=
  JsArray.filled count emptyFeedback.

(** ** The actions of the slice *)

Definition startFeedbackSession (st : chunkedMessagesState)
  : chunkedMessagesState :=
  {| responses := responses st;
     chunks := chunks st;
     feedback :=
       Streams (createEmptyFeedback (length (stream1 (chunks st))))
               (createEmptyFeedback (length (stream2 (chunks st))));
     currentChunkIndices := Streams 0 0;
     isComplete := isComplete st;
     isChunked := true;
     selectedText := selectedText st;
     activeFeedback := activeFeedback st |}.

Definition updateStreamContent (s : StreamId) (content : jsstring)
    (st : chunkedMessagesState) : chunkedMessagesState :=
  {| responses := with_stream (responses st) s content;
     chunks := chunks st;
     feedback := feedback st;
     currentChunkIndices := currentChunkIndices st;
     isComplete := isComplete st;
     isChunked := isChunked st;
     selectedText := selectedText st;
     activeFeedback := activeFeedback st |}.

(** The [for] loop of [createTextChunks], from the counter [i] and the
    chunks pushed so far.  Each unit of [fuel] pays for one iteration;
    [None] says that the fuel ran out before the loop condition failed. *)
Fixpoint createTextChunks_loop (fuel : nat) (maxChunkSize : Z)
    (text : jsstring) (i : Z) (acc : list jsstring)
  : option (list jsstring) :=
  if i <? Z.of_nat (length text) then
    match fuel with
    | O => None
    | S fuel' =>
        let chunk :=
          JsString.substring text i
            (Z.min (i + maxChunkSize) (Z.of_nat (length text))) in
        createTextChunks_loop fuel' maxChunkSize text (i + maxChunkSize)
          (acc ++ [chunk])
    end
  else Some acc.

Definition createTextChunks (fuel : nat) (maxChunkSize : Z) (text : jsstring)
  : option (list jsstring) :=
  if JsString.truthy text
  then createTextChunks_loop fuel maxChunkSize text 0 []
  else Some [].

(** [createChunks (maxChunkSize = 800)]: [None] as the argument is the
    omitted parameter. *)
Definition createChunks (fuel : nat) (maxChunkSize : option Z)
    (st : chunkedMessagesState) : option chunkedMessagesState :=
  let size := default 800 maxChunkSize in
  stream1Chunks ← createTextChunks fuel size (stream1 (responses st));
  stream2Chunks ← createTextChunks fuel size (stream2 (responses st));
  Some {| responses := responses st;
          chunks := Streams stream1Chunks stream2Chunks;
          feedback :=
            Streams (createEmptyFeedback (length stream1Chunks))
                    (createEmptyFeedback (length stream2Chunks));
          currentChunkIndices := currentChunkIndices st;
          isComplete := isComplete st;
          isChunked := isChunked st;
          selectedText := selectedText st;
          activeFeedback := activeFeedback st |}.

Definition completeStreams (fuel : nat) (st : chunkedMessagesState)
  : option chunkedMessagesState :=
  createChunks fuel None
    {| responses := responses st;
       chunks := chunks st;
       feedback := feedback st;
       currentChunkIndices := Streams 0 0;
       isComplete := true;
       isChunked := isChunked st;
       selectedText := selectedText st;
       activeFeedback := activeFeedback st |}.

Definition recordFeedback (now : Z) (s : StreamId) (k : Z)
    (chunkFeedback : ChunkFeedback) (st : chunkedMessagesState)
  : chunkedMessagesState :=
  let streamFeedback := at_stream (feedback st) s in
  let updatedFeedback := JsArray.spread streamFeedback in
  let feedbackWithTimestamp := withTimestamp chunkFeedback now in
  let updatedFeedback := JsArray.set updatedFeedback k feedbackWithTimestamp in
  {| responses := responses st;
     chunks := chunks st;
     feedback := with_stream (feedback st) s updatedFeedback;
     currentChunkIndices := currentChunkIndices st;
     isComplete := isComplete st;
     isChunked := isChunked st;
     selectedText := Some [];
     activeFeedback := Some (Active None None) |}.

Definition showNextChunk (st : chunkedMessagesState) : chunkedMessagesState :=
  let nextIndex1 := stream1 (currentChunkIndices st) + 1 in
  let nextIndex2 := stream2 (currentChunkIndices st) + 1 in
  let maxIndex1 := Z.of_nat (length (stream1 (chunks st))) - 1 in
  let maxIndex2 := Z.of_nat (length (stream2 (chunks st))) - 1 in
  {| responses := responses st;
     chunks := chunks st;
     feedback := feedback st;
     currentChunkIndices :=
       Streams (Z.min nextIndex1 maxIndex1) (Z.min nextIndex2 maxIndex2);
     isComplete := isComplete st;
     isChunked := isChunked st;
     selectedText := selectedText st;
     activeFeedback := activeFeedback st |}.

Definition showNextChunkForStream (s : StreamId) (st : chunkedMessagesState)
  : chunkedMessagesState :=
  let currentIndices := currentChunkIndices st in
  let streamChunks := at_stream (chunks st) s in
  let currentIndex := at_stream currentIndices s in
  let nextIndex := currentIndex + 1 in
  let maxIndex := Z.max 0 (Z.of_nat (length streamChunks) - 1) in
  {| responses := responses st;
     chunks := chunks st;
     feedback := feedback st;
     currentChunkIndices :=
       with_stream currentIndices s (Z.min nextIndex maxIndex);
     isComplete := isComplete st;
     isChunked := isChunked st;
     selectedText := selectedText st;
     activeFeedback := activeFeedback st |}.

Definition resetFeedbackSession (st : chunkedMessagesState)
  : chunkedMessagesState := INITIAL_STATE.

Definition resetEverything (st : chunkedMessagesState) : chunkedMessagesState :=
  let existingResponses := responses st in
  let existingChunks := chunks st in
  {| responses := existingResponses;
     chunks := existingChunks;
     currentChunkIndices := Streams 0 0;
     feedback :=
       Streams (createEmptyFeedback (length (stream1 existingChunks)))
               (createEmptyFeedback (length (stream2 existingChunks)));
     isChunked := true;
     isComplete := true;
     selectedText := None;
     activeFeedback := None |}.

Definition setSelectedText (text : jsstring) (s : StreamId) (k : Z)
    (st : chunkedMessagesState) : chunkedMessagesState :=
  {| responses := responses st;
     chunks := chunks st;
     feedback := feedback st;
     currentChunkIndices := currentChunkIndices st;
     isComplete := isComplete st;
     isChunked := isChunked st;
     selectedText := Some text;
     activeFeedback := Some (Active (Some s) (Some k)) |}.

Definition clearSelectedText (st : chunkedMessagesState)
  : chunkedMessagesState :=
  {| responses := responses st;
     chunks := chunks st;
     feedback := feedback st;
     currentChunkIndices := currentChunkIndices st;
     isComplete := isComplete st;
     isChunked := isChunked st;
     selectedText := Some [];
     activeFeedback := Some (Active None None) |}.

(** ** The selectors of the slice *)

Definition getFeedbackForChunk (st : chunkedMessagesState) (s : StreamId)
    (k : Z) : option ChunkFeedback :=
  JsArray.get (at_stream (feedback st) s) k.

(** The arrow decorations: U+27A1 U+FE0F and a space before the chunk,
    a space and U+2B05 U+FE0F after it. *)
Module Arrow.
Definition prefix : jsstring := [0x27A1; 0xFE0F; 0x20].
Definition suffix : jsstring := [0x20; 0x2B05; 0xFE0F].
End Arrow.

Definition getDecoratedChunk (st : chunkedMessagesState) (s : StreamId)
    (k : Z) : jsstring :=
  let chunks := at_stream (chunks st) s in
  let currentIndex := at_stream (currentChunkIndices st) s in
  match nth_chunk chunks k with
  | None => []
  | Some chunk =>
      if JsString.truthy chunk then
        if k =? currentIndex then Arrow.prefix ++ chunk ++ Arrow.suffix
        else chunk
      else []
  end.

(** ** The store as a transition system *)

(** One constructor per action of the slice that writes the state. *)
Inductive Action : Type :=
| StartFeedbackSession
| UpdateStreamContent (s : StreamId) (content : jsstring)
| CompleteStreams
| CreateChunks (maxChunkSize : option Z)
| RecordFeedback (now : Z) (s : StreamId) (k : Z) (chunkFeedback : ChunkFeedback)
| ShowNextChunk
| ShowNextChunkForStream (s : StreamId)
| ResetFeedbackSession
| ResetEverything
| SetSelectedText (text : jsstring) (s : StreamId) (k : Z)
| ClearSelectedText.

(** The state after an action; [None] when the chunking loop it runs is
    still going after [fuel] iterations. *)
Definition dispatch (fuel : nat) (a : Action) (st : chunkedMessagesState)
  : option chunkedMessagesState :=
  match a with
  | StartFeedbackSession => Some (startFeedbackSession st)
  | UpdateStreamContent s content => Some (updateStreamContent s content st)
  | CompleteStreams => completeStreams fuel st
  | CreateChunks maxChunkSize => createChunks fuel maxChunkSize st
  | RecordFeedback now s k chunkFeedback =>
      Some (recordFeedback now s k chunkFeedback st)
  | ShowNextChunk => Some (showNextChunk st)
  | ShowNextChunkForStream s => Some (showNextChunkForStream s st)
  | ResetFeedbackSession => Some (resetFeedbackSession st)
  | ResetEverything => Some (resetEverything st)
  | SetSelectedText text s k => Some (setSelectedText text s k st)
  | ClearSelectedText => Some (clearSelectedText st)
  end.

(** The states the store can be in: the initial one, and those an action
    that returns leads to. *)
Inductive reachable : chunkedMessagesState -> Prop :=
| reachable_initial : reachable INITIAL_STATE
| reachable_step fuel a st st' :
    reachable st -> dispatch fuel a st = Some st' -> reachable st'.

(** ** The stream-chat hook *)

(** [ConversationPublic] is generated client code and not among the
    sources at hand: the fields the hook reads or writes are named, the
    others travel in [rest]. *)
Record ConversationPublic (Rest : Type) : Type := Conversation {
  id : jsstring;
  description : option jsstring;
  updatedAt : option jsstring;
  rest : Rest
}.
Arguments Conversation {Rest} _ _ _ _.
Arguments id {Rest} _.
Arguments description {Rest} _.
Arguments updatedAt {Rest} _.
Arguments rest {Rest} _.

Section StreamChat.
Context {Rest : Type}.

(** [getUpdatedConversations (conversationId, description = '')]
    applied to the cached list; [None] is [undefined] throughout. *)
Definition getUpdatedConversations (conversationId : option jsstring)
    (description : option jsstring) (now : jsstring)
    (conversations : option (list (ConversationPublic Rest)))
  : option (list (ConversationPublic Rest)) :=
  match conversations with
  | None => None
  | Some cs =>
      Some (map (fun c : ConversationPublic Rest =>
                   if decide (Some (id c) = conversationId)
                   then Conversation (id c) (Some (default [] description))
                                     (Some now) (rest c)
                   else c) cs)
  end.

(** The error class and [isUnauthorizedError] live in the client
    package, outside the sources at hand: [retry] takes them as they
    come. *)
Context {CohereNetworkError : Type}.
Variable isUnauthorizedError : CohereNetworkError -> bool.

Definition retry (failCount : Z) (error : CohereNetworkError) : bool :=
  if isUnauthorizedError error then failCount <? 1 else false.

(** How the mutation runner of the query library uses [retry]: after
    each failed attempt it asks with the number of failures before this
    one, and runs the mutation again on [true].  [failures] are the
    errors the successive attempts would end in; the result counts the
    attempts that are started again. *)
Fixpoint retries_granted (failCount : Z) (failures : list CohereNetworkError)
  : nat :=
  match failures with
  | [] => O
  | error :: failures' =>
      if retry failCount error
      then S (retries_granted (failCount + 1) failures')
      else O
  end.

End StreamChat.

(** ** Vocabulary of the properties *)

(** The cursor of stream [s] points into its chunk list, or is 0 when
    there is none. *)
Definition cursor_ok (st : chunkedMessagesState) (s : StreamId) : Prop :=
  0 <= at_stream (currentChunkIndices st) s
    <= Z.max 0 (Z.of_nat (length (at_stream (chunks st) s)) - 1).

(** One feedback slot per chunk. *)
Definition feedback_sized (st : chunkedMessagesState) (s : StreamId) : Prop :=
  JsArray.len (at_stream (feedback st) s)
  = Z.of_nat (length (at_stream (chunks st) s)).

(** A stream is referred to by the selection only if some text is
    selected. *)
Definition selection_ok (st : chunkedMessagesState) : Prop :=
  forall s,
    activeFeedback st ≫= streamId = Some s ->
    exists text, selectedText st = Some text /\ text <> [].

(** No chunk of the state is the empty string. *)
Definition chunks_nonempty (st : chunkedMessagesState) : Prop :=
  forall s, Forall (fun chunk => chunk <> []) (at_stream (chunks st) s).

(** ** States used as examples *)

(** Two responses of five and two code units. *)
Definition chunking_example : chunkedMessagesState :=
  updateStreamContent Stream2 [66; 66]
    (updateStreamContent Stream1 [65; 65; 65; 65; 65] INITIAL_STATE).

(** The same, cut by twos. *)
Definition chunked_example : chunkedMessagesState :=
  {| responses := Streams [65; 65; 65; 65; 65] [66; 66];
     chunks := Streams [[65; 65]; [65; 65]; [65]] [[66; 66]];
     feedback := Streams (createEmptyFeedback 3) (createEmptyFeedback 1);
     currentChunkIndices := Streams 0 0;
     isComplete := false;
     isChunked := false;
     selectedText := Some [];
     activeFeedback := Some (Active None None) |}.

(** A response has arrived and has not been chunked yet. *)
Definition unchunked_example : chunkedMessagesState :=
  updateStreamContent Stream1 [97] INITIAL_STATE.

(** A selection made in the first chunk of the first stream. *)
Definition selected_example : chunkedMessagesState :=
  setSelectedText [104; 105] Stream1 0 chunked_example.

(** A rating with a comment, [{ rating: 'positive', comment: 'ok' }]. *)
Definition feedback_example : ChunkFeedback :=
  Feedback (Some positive) (Some [111; 107]) None None.

(** [ceil (d / n)] on integers, for [n > 0]. *)
Definition ceil_div (d n : Z) : Z := (d + n - 1) / n.

(** ** The remaining selector of the slice *)

(** What [getSelectedTextFeedback] returns. *)
Record SelectedTextFeedback : Type := SelectedFeedback {
  sel_text : option jsstring;
  sel_streamId : option StreamId;
  sel_chunkIndex : option Z
}.

(** [getSelectedTextFeedback ()].  Reading [activeFeedback.streamId] off
    a missing [activeFeedback] is a [TypeError]: [None]. *)
Definition getSelectedTextFeedback (st : chunkedMessagesState)
  : option SelectedTextFeedback :=
  match activeFeedback st with
  | None => None
  | Some active =>
      Some (SelectedFeedback (selectedText st) (streamId active)
                             (chunkIndex active))
  end.

(** ** The components that drive the slice *)

(** [String.prototype.trim] strips the white space and line terminator
    code units of the language from both ends. *)
Definition isWhiteSpace (c : Z) : bool :=
  bool_decide
    (c ∈ [0x09; 0x0A; 0x0B; 0x0C; 0x0D; 0x20; 0xA0; 0x1680; 0x2000; 0x2001;
          0x2002; 0x2003; 0x2004; 0x2005; 0x2006; 0x2007; 0x2008; 0x2009;
          0x200A; 0x2028; 0x2029; 0x202F; 0x205F; 0x3000; 0xFEFF]).

Fixpoint trimStart (text : jsstring) : jsstring :=
  match text with
  | [] => []
  | c :: text' => if isWhiteSpace c then trimStart text' else text
  end.

Definition trimEnd (text : jsstring) : jsstring :=
  reverse (trimStart (reverse text)).

Definition trim (text : jsstring) : jsstring := trimEnd (trimStart text).

Module MessageStreamColumn.

(** The loop that builds [visibleText]: [i] runs from 0 to
    [currentIndex], and a chunk that exists and is not empty is
    appended. *)
Definition visibleText (chunks : list jsstring) (currentIndex : Z)
  : jsstring :=
  foldl (fun visibleText (i : nat) =>
           match chunks !! i with
           | Some chunk =>
               if JsString.truthy chunk then visibleText ++ chunk
               else visibleText
           | None => visibleText
           end)
        [] (seq 0 (Z.to_nat (currentIndex + 1))).

(** [handleMouseUp]: [selection] is [None] when [window.getSelection ()]
    is null, and its [toString ()] otherwise. *)
Definition handleMouseUp (selection : option jsstring) (s : StreamId)
    (currentIndex : Z) (st : chunkedMessagesState) : chunkedMessagesState :=
  match selection with
  | Some text =>
      if JsString.truthy text then setSelectedText text s currentIndex st
      else st
  | None => st
  end.

End MessageStreamColumn.

(** The feedback panel reads the store at render time; a handler runs in
    the state the panel was last rendered from. *)
Module FeedbackPanel.

(** [store.chunkedMessages?.currentChunkIndices?.[streamId] ?? 0] *)
Definition currentChunkIndex (st : chunkedMessagesState) (s : StreamId) : Z :=
  at_stream (currentChunkIndices st) s.

(** [store.chunkedMessages?.selectedText || ''] *)
Definition selectedText (st : chunkedMessagesState) : jsstring :=
  match selectedText st with
  | Some text => text
  | None => []
  end.

(** [activeFeedback?.streamId === streamId], with
    [store.chunkedMessages?.activeFeedback || { streamId: null, ... }]. *)
Definition isSelectedTextForThisStream (st : chunkedMessagesState)
    (s : StreamId) : bool :=
  bool_decide (activeFeedback st ≫= streamId = Some s).

Definition getFeedbackSafely (st : chunkedMessagesState) (s : StreamId)
  : option ChunkFeedback :=
  JsArray.get (at_stream (feedback st) s) (currentChunkIndex st s).

(** The first version of the panel: thumbs up, thumbs down, save. *)
Module V1.

(** [prepareFeedbackWithSelection (rating)]; [comment] is the text of
    the input field, [now0] the clock at this point. *)
Definition prepareFeedbackWithSelection (comment : jsstring) (now0 : Z)
    (rating : option Rating) (s : StreamId) (st : chunkedMessagesState)
  : ChunkFeedback :=
  Feedback rating (Some (trim comment))
    (Some (if isSelectedTextForThisStream st s then selectedText st
           else match getFeedbackSafely st s ≫= fb_selectedText with
                | Some text => text
                | None => []
                end))
    (Some now0).

(** The three click handlers do the same with a different rating:
    record at the current index, clear the selection, advance both
    streams. *)
Definition handleRating (rating : option Rating) (comment : jsstring)
    (now0 now : Z) (s : StreamId) (st : chunkedMessagesState)
  : chunkedMessagesState :=
  let feedback := prepareFeedbackWithSelection comment now0 rating s st in
  showNextChunk
    (clearSelectedText
       (recordFeedback now s (currentChunkIndex st s) feedback st)).

Definition handleThumbsUp := handleRating (Some positive).
Definition handleThumbsDown := handleRating (Some negative).

(** [handleSaveComment] keeps the rating already recorded, if any. *)
Definition handleSaveComment (comment : jsstring) (now0 now : Z)
    (s : StreamId) (st : chunkedMessagesState) : chunkedMessagesState :=
  handleRating (getFeedbackSafely st s ≫= rating) comment now0 now s st.

(** The document-level [mouseup] listener; [isInThisStream] is the
    outcome of the test on the selection rectangle. *)
Definition handleMouseUp (selection : option jsstring) (isInThisStream : bool)
    (s : StreamId) (st : chunkedMessagesState) : chunkedMessagesState :=
  match selection with
  | None => clearSelectedText st
  | Some raw =>
      if JsString.truthy (trim raw) then
        if isInThisStream
        then setSelectedText (trim raw) s (currentChunkIndex st s) st
        else st
      else clearSelectedText st
  end.

End V1.

(** The second version: "I prefer this section" and submit. *)
Module V2.

(** [highlightedText] is the panel's own copy of the last selection. *)
Definition prepareFeedbackWithSelection (comment highlightedText : jsstring)
    (now0 : Z) (rating : option Rating) (s : StreamId)
    (st : chunkedMessagesState) : ChunkFeedback :=
  Feedback rating (Some (trim comment))
    (Some (if isSelectedTextForThisStream st s then selectedText st
           else highlightedText))
    (Some now0).

Definition handlePreferSection (comment highlightedText : jsstring)
    (now0 now : Z) (s : StreamId) (st : chunkedMessagesState)
  : chunkedMessagesState :=
  let feedback :=
    prepareFeedbackWithSelection comment highlightedText now0
      (Some positive) s st in
  showNextChunk
    (clearSelectedText
       (recordFeedback now s (currentChunkIndex st s) feedback st)).

Definition handleSubmitFeedback (comment highlightedText : jsstring)
    (now0 now : Z) (s : StreamId) (st : chunkedMessagesState)
  : chunkedMessagesState :=
  let feedback :=
    prepareFeedbackWithSelection comment highlightedText now0 None s st in
  showNextChunk (recordFeedback now s (currentChunkIndex st s) feedback st).

(** Here a blank selection leaves the store alone. *)
Definition handleMouseUp (selection : option jsstring) (isInThisStream : bool)
    (s : StreamId) (st : chunkedMessagesState) : chunkedMessagesState :=
  match selection with
  | None => st
  | Some raw =>
      if JsString.truthy (trim raw) then
        if isInThisStream
        then setSelectedText (trim raw) s (currentChunkIndex st s) st
        else st
      else st
  end.

End V2.

(** [handleDocumentClick], the same in both versions. *)
Definition handleDocumentClick (selection : option jsstring)
    (st : chunkedMessagesState) : chunkedMessagesState :=
  match selection with
  | None => clearSelectedText st
  | Some raw =>
      if JsString.truthy (trim raw) then st else clearSelectedText st
  end.

End FeedbackPanel.

(** ** The chat mutation of the stream-chat hook *)

(** An ASCII literal as a JavaScript string. *)
Definition js (literal : string) : jsstring :=
  (fun a => Z.of_N (Ascii.N_of_ascii a)) <$> String.list_ascii_of_string literal.

(** The fields of [StreamEnd] the hook reads: [finish_reason], [error],
    [text] and [conversation_id]. *)
Record StreamEnd : Type := StreamEndData {
  se_finish_reason : option jsstring;
  se_error : option jsstring;
  se_text : option jsstring;
  se_conversation_id : option jsstring
}.

(** The two values a property cannot be read off. *)
Inductive Nullish : Type := js_undefined | js_null.

(** What a callback or [JSON.parse] throws: an [Error] with its message,
    or something that is not an [Error]. *)
Inductive Thrown : Type :=
| ErrorObject (message : jsstring)
| NotAnError.

(** [a || b] on optional strings. *)
Definition or_else (a : option jsstring) (b : jsstring) : jsstring :=
  match a with
  | Some text => if JsString.truthy text then text else b
  | None => b
  end.

Section ChatMutation.
Context {Rest Payload : Type}.

(** A decoded event: a stream end ([data.event === StreamEvent.STREAM_END])
    with its [data.data], or any other value.  [data.data] is cast to
    [StreamEnd] unchecked: it may be missing or null, and otherwise its
    fields read as the record says (all absent for a value that is no
    object). *)
Inductive ChatResponse : Type :=
| StreamEndResponse (streamEndData : Nullish + StreamEnd)
| OtherResponse (payload : Payload).

(** [JSON.parse (event.data)]: a [SyntaxError] with its message, or the
    decoded event. *)
Inductive Parsed : Type :=
| ParseThrows (message : jsstring)
| ParseReturns (data : ChatResponse).

(** What the mutation touches: the ['conversations'] entry of the query
    cache, and the events handed to [onRead] so far. *)
Record ChatWorld : Type := World {
  conversations : option (list (ConversationPublic Rest));
  delivered : list ChatResponse
}.

(** [FinishReason.COMPLETE] is generated client code; [JSON_parse] is the
    engine's, and so is [typeErrorMessage], the message of the
    [TypeError] raised when [finish_reason] is read off undefined or
    null; [onRead] is the caller's callback and says what it throws, if
    anything. *)
Variable COMPLETE : jsstring.
Variable JSON_parse : jsstring -> Parsed.
Variable typeErrorMessage : Nullish -> jsstring.
Variable onRead : ChatResponse -> option Thrown.

(** [queryClient.setQueryData (['conversations'], updater)] *)
Definition setConversations
    (updater : option (list (ConversationPublic Rest)) ->
               option (list (ConversationPublic Rest)))
    (w : ChatWorld) : ChatWorld :=
  World (updater (conversations w)) (delivered w).

(** [onRead (data)] inside the [try]: the call is made, and what it
    throws is turned into the message of the [Error] thrown on. *)
Definition deliver (data : ChatResponse) (w : ChatWorld)
  : ChatWorld * option jsstring :=
  (World (conversations w) (delivered w ++ [data]),
   match onRead data with
   | None => None
   | Some (ErrorObject message) => Some message
   | Some NotAnError => Some (js "unable to parse event data")
   end).

(** [onMessage (event)] of [chatStreamParams], for the request's
    [conversation_id] and the text of [event.data].  The second
    component is the message of the [Error] thrown, if one is. *)
Definition onMessage (request_conversation_id : option jsstring)
    (now : jsstring) (event_data : jsstring) (w : ChatWorld)
  : ChatWorld * option jsstring :=
  if JsString.truthy event_data then
    match JSON_parse event_data with
    | ParseThrows message => (w, Some message)
    | ParseReturns (StreamEndResponse (inl nullish)) =>
        (w, Some (typeErrorMessage nullish))
    | ParseReturns (StreamEndResponse (inr streamEndData) as data) =>
        if decide (se_finish_reason streamEndData = Some COMPLETE) then
          deliver data
            (if JsString.truthy (or_else request_conversation_id [])
             then setConversations
                    (getUpdatedConversations request_conversation_id
                       (se_text streamEndData) now) w
             else w)
        else
          (w, Some (or_else (se_error streamEndData)
                            (js "Stream ended unexpectedly")))
    | ParseReturns (OtherResponse _ as data) => deliver data w
    end
  else (w, None).


End ChatMutation.

(** ** The client *)

(** What [response.json ()] resolves to: null, or a value whose [token]
    field reads as given (absent for a value without one). *)
Inductive Body : Type :=
| NullBody
| ObjectBody (token : option jsstring).

(** The part of a [Response] the client looks at: the status, the
    [X-Toolkit-Auth-Update] header, and [response.json ()]: [None] when
    the promise rejects, and the body it resolves to otherwise. *)
Record Response : Type := HttpResponse {
  status : Z;
  authUpdate : option jsstring;
  json : option Body
}.

(** The fields of [CohereClient] that change, and the arguments
    [onAuthTokenUpdate] has been called with. *)
Record CohereClient : Type := Client {
  hostname : jsstring;
  authToken : option jsstring;
  hasAuthTokenUpdate : bool;
  notified : list (option jsstring)
}.

(** What a call of the client throws: the error of the client, the
    rejection of [response.json ()], or the [TypeError] of reading
    [token] off a null body. *)
Inductive ClientError : Type :=
| CohereNetworkError (message : jsstring) (status : Z)
| JsonError
| TypeError.

Module CohereClient.

Definition handleAuthTokenUpdate (response : Response) (c : CohereClient)
  : CohereClient :=
  let authToken' :=
    match authUpdate response with
    | Some token => if JsString.truthy token then Some token else authToken c
    | None => authToken c
    end in
  Client (hostname c) authToken' (hasAuthTokenUpdate c)
         (if hasAuthTokenUpdate c then notified c ++ [authToken']
          else notified c).

(** [{ ...a, ...b }] *)
Definition spread (a b : gmap jsstring jsstring) : gmap jsstring jsstring :=
  b ∪ a.

Definition getHeaders (omitContentType : bool) (c : CohereClient)
  : gmap jsstring jsstring :=
  <[js "User-Id" := js "user-id"]>
    (spread
       (if omitContentType then ∅
        else {[ js "Content-Type" := js "application/json" ]})
       (if JsString.truthy (or_else (authToken c) [])
        then {[ js "Authorization" := js "Bearer " ++ or_else (authToken c) [] ]}
        else ∅)).

(** The headers [chat] hands to [fetchEventSource]. *)
Definition chat_headers (headers : option (gmap jsstring jsstring))
    (c : CohereClient) : gmap jsstring jsstring :=
  spread (getHeaders false c) (default ∅ headers).

(** [googleSSOAuth], from the response of the [fetch]. *)
Definition googleSSOAuth (response : Response) (c : CohereClient)
  : CohereClient * (ClientError + Body) :=
  let c1 := handleAuthTokenUpdate response c in
  match json response with
  | None => (c1, inl JsonError)
  | Some NullBody => (c1, inl TypeError)
  | Some (ObjectBody token as body) =>
      let c2 := Client (hostname c1) token (hasAuthTokenUpdate c1)
                       (notified c1) in
      if decide (status response = 200) then (c2, inr body)
      else (c2, inl (CohereNetworkError (js "Something went wrong")
                                        (status response)))
  end.

(** [oidcSSOAuth], from the response of the [fetch].  The token stored
    is [body.token], where [body] is the request body built above, which
    has no such field; the payload of the response is returned without
    being looked at. *)
Definition oidcSSOAuth (response : Response) (c : CohereClient)
  : CohereClient * (ClientError + Body) :=
  match json response with
  | None => (c, inl JsonError)
  | Some payload =>
      let c1 := Client (hostname c) None (hasAuthTokenUpdate c)
                       (notified c) in
      if decide (status response = 200) then (c1, inr payload)
      else (c1, inl (CohereNetworkError (js "Something went wrong")
                                        (status response)))
  end.

End CohereClient.

(** * Properties *)

(** ** Chunking *)

Section Chunking.

Implicit Types (text chunk : jsstring) (acc rest : list jsstring).

Lemma substring_inside text a b :
  0 <= a -> a <= b -> b <= Z.of_nat (length text) ->
  JsString.substring text a b
  = take (Z.to_nat (b - a)) (drop (Z.to_nat a) text).
Proof.
  intros Ha Hab Hb. unfold JsString.substring, JsString.clamp.
  repeat f_equal; lia.
Qed.

Lemma substring_length text a b :
  0 <= a -> a <= b -> b <= Z.of_nat (length text) ->
  Z.of_nat (length (JsString.substring text a b)) = b - a.
Proof.
  intros Ha Hab Hb. rewrite substring_inside by lia.
  rewrite length_take, length_drop. lia.
Qed.

Lemma ceil_div_step d n :
  0 < n -> 0 < d ->
  ceil_div d n = 1 + ceil_div (Z.max 0 (d - n)) n.
Proof.
  intros Hn Hd. unfold ceil_div.
  destruct (Z_lt_le_dec d n) as [Hlt | Hge].
  - replace (Z.max 0 (d - n)) with 0 by lia.
    replace (d + n - 1) with ((d - 1) + 1 * n) by lia.
    rewrite Z.div_add by lia.
    rewrite !Z.div_small by lia. lia.
  - replace (Z.max 0 (d - n)) with (d - n) by lia.
    replace (d + n - 1) with ((d - n + n - 1) + 1 * n) by lia.
    rewrite Z.div_add by lia. lia.
Qed.

Lemma ceil_div_0 n : 0 < n -> ceil_div 0 n = 0.
Proof. intros Hn. unfold ceil_div. apply Z.div_small. lia. Qed.

(** [ceil_div] is the ceiling of the quotient: the least count of
    pieces of size [n] that cover [d]. *)
Lemma ceil_div_bounds d n :
  0 < n -> (ceil_div d n - 1) * n < d <= ceil_div d n * n.
Proof.
  intros Hn. unfold ceil_div.
  pose proof (Z.div_mod (d + n - 1) n ltac:(lia)) as Hdm.
  pose proof (Z.mod_pos_bound (d + n - 1) n Hn) as Hr.
  nia.
Qed.

(** The loop started at [i] with enough fuel returns, and what it adds
    to [acc] cuts the rest of the text into pieces of [n] code units. *)
Lemma createTextChunks_loop_spec n text :
  0 < n ->
  forall fuel i acc,
    0 <= i ->
    Z.of_nat (length text) - i <= Z.of_nat fuel ->
    exists rest,
      createTextChunks_loop fuel n text i acc = Some (acc ++ rest)
      /\ concat rest = drop (Z.to_nat i) text
      /\ Z.of_nat (length rest)
         = ceil_div (Z.max 0 (Z.of_nat (length text) - i)) n
      /\ forall (j : nat) chunk,
           rest !! j = Some chunk ->
           chunk = JsString.substring text (i + Z.of_nat j * n)
                     (Z.min (i + (Z.of_nat j + 1) * n)
                            (Z.of_nat (length text)))
           /\ 0 < Z.of_nat (length chunk) <= n.
Proof.
  intros Hn fuel.
  induction fuel as [|fuel IH]; intros i acc Hi Hfuel; simpl.
  - destruct (Z.ltb_spec i (Z.of_nat (length text))) as [Hlt|Hge]; [lia|].
    exists []. rewrite app_nil_r. split; [done|]. split.
    { simpl. rewrite drop_ge by lia. done. }
    split.
    { simpl. replace (Z.max 0 _) with 0 by lia. by rewrite ceil_div_0. }
    intros j chunk Hj. by rewrite lookup_nil in Hj.
  - destruct (Z.ltb_spec i (Z.of_nat (length text))) as [Hlt|Hge].
    + set (stop := Z.min (i + n) (Z.of_nat (length text))).
      set (chunk := JsString.substring text i stop).
      destruct (IH (i + n) (acc ++ [chunk])) as (rest & Hrun & Hcat & Hlen & Hnth);
        [lia | lia |].
      exists (chunk :: rest). split.
      { rewrite Hrun. by rewrite <- app_assoc. }
      split.
      { simpl. rewrite Hcat. subst chunk. unfold stop.
        rewrite substring_inside by lia.
        destruct (Z_le_gt_dec (i + n) (Z.of_nat (length text))) as [Hfit|Hover].
        - replace (Z.min (i + n) _) with (i + n) by lia.
          replace (Z.to_nat (i + n)) with (Z.to_nat i + Z.to_nat n)%nat by lia.
          rewrite <- drop_drop.
          replace (Z.to_nat (i + n - i)) with (Z.to_nat n) by lia.
          apply take_drop.
        - replace (Z.min (i + n) _) with (Z.of_nat (length text)) by lia.
          rewrite (drop_ge text (Z.to_nat (i + n))) by lia.
          rewrite app_nil_r. apply take_ge. rewrite length_drop. lia. }
      split.
      { simpl length. rewrite Nat2Z.inj_succ, Hlen.
        replace (Z.max 0 (Z.of_nat (length text) - i))
          with (Z.of_nat (length text) - i) by lia.
        rewrite (ceil_div_step (Z.of_nat (length text) - i) n) by lia.
        replace (Z.of_nat (length text) - i - n)
          with (Z.of_nat (length text) - (i + n)) by lia.
        lia. }
      intros [|j] c Hj.
      * simpl in Hj. injection Hj as <-. split.
        { subst chunk. unfold stop. f_equal; lia. }
        subst chunk. rewrite substring_length; unfold stop; lia.
      * simpl in Hj. destruct (Hnth j c Hj) as [-> Hsize]. split; [|exact Hsize].
        f_equal; lia.
    + exists []. rewrite app_nil_r. split; [done|]. split.
      { simpl. rewrite drop_ge by lia. done. }
      split.
      { simpl. replace (Z.max 0 _) with 0 by lia. by rewrite ceil_div_0. }
      intros j chunk Hj. by rewrite lookup_nil in Hj.
Qed.

(** With a size that is not positive the loop never leaves a
    non-empty text: no amount of fuel makes it return. *)
Lemma createTextChunks_loop_diverges n text :
  n <= 0 ->
  forall fuel i acc,
    i < Z.of_nat (length text) ->
    createTextChunks_loop fuel n text i acc = None.
Proof.
  intros Hn fuel.
  induction fuel as [|fuel IH]; intros i acc Hi; simpl.
  - destruct (Z.ltb_spec i (Z.of_nat (length text))); [done | lia].
  - destruct (Z.ltb_spec i (Z.of_nat (length text))); [|lia].
    apply IH. lia.
Qed.

Lemma createTextChunks_spec n text fuel :
  0 < n ->
  Z.of_nat (length text) <= Z.of_nat fuel ->
  exists cs,
    createTextChunks fuel n text = Some cs
    /\ concat cs = text
    /\ Z.of_nat (length cs) = ceil_div (Z.of_nat (length text)) n
    /\ forall (j : nat) chunk,
         cs !! j = Some chunk ->
         chunk = JsString.substring text (Z.of_nat j * n)
                   (Z.min ((Z.of_nat j + 1) * n) (Z.of_nat (length text)))
         /\ 0 < Z.of_nat (length chunk) <= n.
Proof.
  intros Hn Hfuel. unfold createTextChunks.
  destruct text as [|c text]; simpl JsString.truthy; cbv iota.
  - exists []. split; [done|]. split; [done|]. split.
    { simpl. by rewrite ceil_div_0. }
    intros j chunk Hj. by rewrite lookup_nil in Hj.
  - destruct (createTextChunks_loop_spec n (c :: text) Hn fuel 0 [])
      as (rest & Hrun & Hcat & Hlen & Hnth); [lia | lia |].
    exists rest. split; [exact Hrun|]. split; [exact Hcat|]. split.
    { rewrite Hlen. f_equal; lia. }
    intros j chunk Hj. destruct (Hnth j chunk Hj) as [-> Hsize].
    split; [|exact Hsize]. f_equal; lia.
Qed.

(** What [createChunks] returns, spelled out. *)
Lemma createChunks_inv fuel maxChunkSize st st' :
  createChunks fuel maxChunkSize st = Some st' ->
  exists cs1 cs2,
    createTextChunks fuel (default 800 maxChunkSize) (stream1 (responses st))
    = Some cs1
    /\ createTextChunks fuel (default 800 maxChunkSize)
         (stream2 (responses st)) = Some cs2
    /\ st' = {| responses := responses st;
                chunks := Streams cs1 cs2;
                feedback :=
                  Streams (createEmptyFeedback (length cs1))
                          (createEmptyFeedback (length cs2));
                currentChunkIndices := currentChunkIndices st;
                isComplete := isComplete st;
                isChunked := isChunked st;
                selectedText := selectedText st;
                activeFeedback := activeFeedback st |}.
Proof.
  unfold createChunks. intros Hrun.
  destruct (createTextChunks fuel _ (stream1 _)) as [cs1|]; [|done].
  destruct (createTextChunks fuel _ (stream2 _)) as [cs2|]; [|done].
  simpl in Hrun. injection Hrun as <-. by exists cs1, cs2.
Qed.

(** C1.  For every state and every chunk size [n > 0] (the omitted
    argument counting as 800), [createChunks] returns once the loop is
    given as many iterations as the longer response has code units,
    keeps the responses, and for each stream: the chunks concatenated in
    index order are the response; there are [ceil (len / n)] of them
    (none for the empty text); chunk [j] is the segment
    [j * n .. min ((j + 1) * n, len)) of the response, between 1 and [n]
    code units long; and the feedback array is one empty entry per
    chunk. *)
Theorem createChunks_partitions (fuel : nat) (maxChunkSize : option Z)
    (st : chunkedMessagesState) :
  0 < default 800 maxChunkSize ->
  (forall s, Z.of_nat (length (at_stream (responses st) s)) <= Z.of_nat fuel) ->
  exists st',
    createChunks fuel maxChunkSize st = Some st'
    /\ responses st' = responses st
    /\ forall s,
         concat (at_stream (chunks st') s) = at_stream (responses st) s
         /\ Z.of_nat (length (at_stream (chunks st') s))
            = ceil_div (Z.of_nat (length (at_stream (responses st) s)))
                       (default 800 maxChunkSize)
         /\ (at_stream (responses st) s = [] -> at_stream (chunks st') s = [])
         /\ (forall (j : nat) chunk,
               at_stream (chunks st') s !! j = Some chunk ->
               chunk = JsString.substring (at_stream (responses st) s)
                         (Z.of_nat j * default 800 maxChunkSize)
                         (Z.min ((Z.of_nat j + 1) * default 800 maxChunkSize)
                                (Z.of_nat (length (at_stream (responses st) s))))
               /\ 0 < Z.of_nat (length chunk) <= default 800 maxChunkSize)
         /\ at_stream (feedback st') s
            = JsArray (replicate (length (at_stream (chunks st') s))
                                 (Some emptyFeedback)) ∅.
Proof.
  intros Hn Hfuel. set (n := default 800 maxChunkSize) in *.
  destruct (createTextChunks_spec n (stream1 (responses st)) fuel Hn
              (Hfuel Stream1)) as (cs1 & Hrun1 & Hcat1 & Hlen1 & Hnth1).
  destruct (createTextChunks_spec n (stream2 (responses st)) fuel Hn
              (Hfuel Stream2)) as (cs2 & Hrun2 & Hcat2 & Hlen2 & Hnth2).
  eexists. split.
  { unfold createChunks. fold n. rewrite Hrun1, Hrun2. simpl. reflexivity. }
  split; [reflexivity|].
  intros [|]; simpl.
  - repeat split; try done.
    + intros Hempty. rewrite Hempty in Hlen1. simpl in Hlen1.
      rewrite ceil_div_0 in Hlen1 by done. destruct cs1; [done | simpl in Hlen1; lia].
    + by apply Hnth1.
    + by apply (Hnth1 j chunk).
    + by apply (Hnth1 j chunk).
  - repeat split; try done.
    + intros Hempty. rewrite Hempty in Hlen2. simpl in Hlen2.
      rewrite ceil_div_0 in Hlen2 by done. destruct cs2; [done | simpl in Hlen2; lia].
    + by apply Hnth2.
    + by apply (Hnth2 j chunk).
    + by apply (Hnth2 j chunk).
Qed.

Lemma createChunks_partitions_witness :
  exists st',
    createChunks 5 (Some 2) chunking_example = Some st'
    /\ forall s, concat (at_stream (chunks st') s)
                 = at_stream (responses chunking_example) s.
Proof.
  destruct (createChunks_partitions 5 (Some 2) chunking_example)
    as (st' & Hrun & _ & Hall).
  - simpl. lia.
  - intros []; simpl; lia.
  - exists st'. split; [exact Hrun|]. intros s. apply (Hall s).
Defined.

Example createChunks_example :
  createChunks 5 (Some 2) chunking_example = Some chunked_example.
Proof. reflexivity. Qed.

(** A thousand and five hundred code units at the default size: chunks
    of 800 and 200, and one of 500, each with its empty feedback slot. *)
Example completeStreams_scenario :
  (fun st =>
     (length <$> stream1 (chunks st), length <$> stream2 (chunks st),
      items (stream1 (feedback st)), items (stream2 (feedback st))))
  <$> completeStreams 1000
        (updateStreamContent Stream2 (replicate 500 66)
           (updateStreamContent Stream1 (replicate 1000 65) INITIAL_STATE))
  = Some ([800; 200]%nat, [500]%nat,
          [Some emptyFeedback; Some emptyFeedback], [Some emptyFeedback]).
Proof. vm_compute. reflexivity. Qed.

Lemma chunked_example_reachable : reachable chunked_example.
Proof.
  apply (reachable_step 5 (CreateChunks (Some 2)) chunking_example);
    [|reflexivity].
  apply (reachable_step 0 (UpdateStreamContent Stream2 [66; 66])
           (updateStreamContent Stream1 [65; 65; 65; 65; 65] INITIAL_STATE));
    [|reflexivity].
  apply (reachable_step 0 (UpdateStreamContent Stream1 [65; 65; 65; 65; 65])
           INITIAL_STATE); [|reflexivity].
  apply reachable_initial.
Qed.

End Chunking.

(** ** Reveal cursors *)

Section Cursors.

Implicit Types (st : chunkedMessagesState) (s : StreamId).

Lemma at_with_stream_same {A} (obj : PerStream A) s (v : A) :
  at_stream (with_stream obj s v) s = v.
Proof. by destruct s. Qed.

Lemma at_with_stream_other {A} (obj : PerStream A) s s' (v : A) :
  s' <> s -> at_stream (with_stream obj s v) s' = at_stream obj s'.
Proof. by destruct s, s'. Qed.

(** The single-stream advance keeps every cursor in range. *)
Lemma showNextChunkForStream_cursor_ok st s s' :
  cursor_ok st s' -> cursor_ok (showNextChunkForStream s st) s'.
Proof.
  unfold cursor_ok, showNextChunkForStream. simpl. intros Hok.
  destruct (decide (s' = s)) as [->|Hne].
  - rewrite at_with_stream_same. lia.
  - by rewrite at_with_stream_other.
Qed.

(** It never moves an in-range cursor back. *)
Lemma showNextChunkForStream_monotone st s s' :
  cursor_ok st s' ->
  at_stream (currentChunkIndices st) s'
  <= at_stream (currentChunkIndices (showNextChunkForStream s st)) s'.
Proof.
  unfold cursor_ok, showNextChunkForStream. simpl. intros Hok.
  destruct (decide (s' = s)) as [->|Hne].
  - rewrite at_with_stream_same. lia.
  - by rewrite at_with_stream_other.
Qed.

(** The two-stream advance does the same for a stream that has chunks. *)
Lemma showNextChunk_cursor_ok st s :
  at_stream (chunks st) s <> [] ->
  cursor_ok st s ->
  cursor_ok (showNextChunk st) s
  /\ at_stream (currentChunkIndices st) s
     <= at_stream (currentChunkIndices (showNextChunk st)) s.
Proof.
  unfold cursor_ok, showNextChunk. intros Hne Hok.
  destruct s; simpl in *.
  - destruct (stream1 (chunks st)); [done | simpl length in *; lia].
  - destruct (stream2 (chunks st)); [done | simpl length in *; lia].
Qed.

(** Apart from the two-stream advance and a bare [createChunks], every
    action keeps the cursors in range. *)
Lemma dispatch_cursor_ok fuel a st st' :
  dispatch fuel a st = Some st' ->
  a <> ShowNextChunk ->
  (forall maxChunkSize, a <> CreateChunks maxChunkSize) ->
  (forall s, cursor_ok st s) ->
  forall s, cursor_ok st' s.
Proof.
  intros Hstep Hnot_both Hnot_chunk Hok s.
  destruct a; simpl in Hstep; try done;
    try (injection Hstep as <-; first [exact (Hok s) | unfold cursor_ok; destruct s; simpl; lia]).
  - unfold completeStreams in Hstep.
    destruct (createChunks_inv _ _ _ _ Hstep) as (cs1 & cs2 & _ & _ & ->).
    unfold cursor_ok. destruct s; simpl; lia.
  - by destruct (Hnot_chunk maxChunkSize).
  - injection Hstep as <-. by apply showNextChunkForStream_cursor_ok.
Qed.

(** A bare [createChunks] can leave a cursor past the new chunk list:
    the first response cut by ones, the cursor moved to its last chunk,
    then the same response cut by the default size. *)
Example createChunks_stale_cursor :
  (fun st => (stream1 (currentChunkIndices st), length (stream1 (chunks st))))
  <$> (createChunks 5 (Some 1) chunking_example
         ≫= (fun st =>
                createChunks 5 None
                  (showNextChunkForStream Stream1
                     (showNextChunkForStream Stream1 st))))
  = Some (2, 1%nat).
Proof. reflexivity. Qed.

(** C2.  [showNextChunk] on a stream without chunks: after
    [updateStreamContent ('stream1', 'ab')] and [completeStreams ()] the
    second stream has no chunk and its cursor is 0, within the
    invariant; [showNextChunk ()] then sets that cursor to
    [min (0 + 1, 0 - 1) = -1], below 0 and below where it was.  The same
    happens to both cursors of the initial state.  (The single-stream
    advance clamps with [max (0, length - 1)] and stays at 0.) *)
Theorem showNextChunk_empty_stream_goes_negative :
  (exists st,
     completeStreams 2 (updateStreamContent Stream1 [97; 98] INITIAL_STATE)
     = Some st
     /\ reachable st
     /\ stream2 (chunks st) = []
     /\ cursor_ok st Stream2
     /\ stream2 (currentChunkIndices st) = 0
     /\ stream2 (currentChunkIndices (showNextChunk st)) = -1
     /\ ~ cursor_ok (showNextChunk st) Stream2
     /\ stream2 (currentChunkIndices (showNextChunkForStream Stream2 st)) = 0)
  /\ currentChunkIndices (showNextChunk INITIAL_STATE) = Streams (-1) (-1)
  /\ reachable (showNextChunk INITIAL_STATE).
Proof.
  split; [|split].
  - eexists. split; [reflexivity|]. split.
    { apply (reachable_step 2 CompleteStreams
               (updateStreamContent Stream1 [97; 98] INITIAL_STATE));
        [|reflexivity].
      apply (reachable_step 0 (UpdateStreamContent Stream1 [97; 98])
               INITIAL_STATE); [|reflexivity].
      apply reachable_initial. }
    unfold cursor_ok. simpl. repeat split; try lia.
  - reflexivity.
  - apply (reachable_step 0 ShowNextChunk INITIAL_STATE); [|reflexivity].
    apply reachable_initial.
Qed.

(** [createChunks] on its own replaces the chunks and keeps the
    cursors; it is [completeStreams] that puts them back to 0 first. *)
Lemma createChunks_keeps_cursors fuel maxChunkSize st st' :
  createChunks fuel maxChunkSize st = Some st' ->
  currentChunkIndices st' = currentChunkIndices st.
Proof.
  unfold createChunks. intros Hrun.
  destruct (createTextChunks fuel _ (stream1 _)); [|done].
  destruct (createTextChunks fuel _ (stream2 _)); [|done].
  simpl in Hrun. by injection Hrun as <-.
Qed.

Lemma completeStreams_resets_cursors fuel st st' :
  completeStreams fuel st = Some st' ->
  currentChunkIndices st' = Streams 0 0.
Proof.
  unfold completeStreams. intros Hrun.
  by rewrite (createChunks_keeps_cursors _ _ _ _ Hrun).
Qed.

(** C8 as stated fails: a selection made before
    [showNextChunkForStream] is still there after it. *)
Lemma showNextChunkForStream_keeps_selection_counterexample :
  selectedText (showNextChunkForStream Stream1 selected_example)
  = Some [104; 105]
  /\ selectedText (showNextChunkForStream Stream1 selected_example)
     <> Some []
  /\ activeFeedback (showNextChunkForStream Stream1 selected_example)
     = Some (Active (Some Stream1) (Some 0))
  /\ activeFeedback (showNextChunkForStream Stream1 selected_example)
     <> Some (Active None None).
Proof. simpl. repeat split; done. Qed.

(** C8, amended.  [showNextChunkForStream s] sets the cursor of [s] to
    its successor clamped to the last valid index,
    [min (cursor + 1, max (0, length - 1))], and changes nothing else:
    the other cursor, the responses, the chunks, the feedback, the
    flags, and also the selected text and the active feedback
    reference are what they were. *)
Theorem showNextChunkForStream_advances_only st s :
  at_stream (currentChunkIndices (showNextChunkForStream s st)) s
  = Z.min (at_stream (currentChunkIndices st) s + 1)
          (Z.max 0 (Z.of_nat (length (at_stream (chunks st) s)) - 1))
  /\ (forall s', s' <> s ->
        at_stream (currentChunkIndices (showNextChunkForStream s st)) s'
        = at_stream (currentChunkIndices st) s')
  /\ responses (showNextChunkForStream s st) = responses st
  /\ chunks (showNextChunkForStream s st) = chunks st
  /\ feedback (showNextChunkForStream s st) = feedback st
  /\ isComplete (showNextChunkForStream s st) = isComplete st
  /\ isChunked (showNextChunkForStream s st) = isChunked st
  /\ selectedText (showNextChunkForStream s st) = selectedText st
  /\ activeFeedback (showNextChunkForStream s st) = activeFeedback st.
Proof.
  unfold showNextChunkForStream. simpl. split.
  { by rewrite at_with_stream_same. }
  split; [|done].
  intros s' Hne. by rewrite at_with_stream_other.
Qed.

End Cursors.

(** ** Writing feedback *)

(** Case analysis on the comparisons of a goal about array keys. *)
Ltac array_cases :=
  unfold JsArray.get, JsArray.set, JsArray.is_slot, JsArray.spread,
    JsArray.len, JsArray.maxIndex in *; simpl in *;
  repeat match goal with
         | |- context [?x <=? ?y] => destruct (Z.leb_spec x y)
         | |- context [?x <? ?y] => destruct (Z.ltb_spec x y)
         end; simpl in *;
  try rewrite !length_app in *; try rewrite !length_replicate in *;
  try rewrite !length_insert in *; simpl in *; try lia.

Section ArrayWrites.
Context {A : Type}.
Implicit Types (a : jsarray A) (v : A) (k j : Z).

Lemma array_get_set_same a k v :
  0 <= k -> JsArray.get (JsArray.set a k v) k = Some v.
Proof.
  intros Hk.
  destruct (Z_lt_le_dec k (JsArray.len a)) as [Hin|Hout].
  - array_cases; by rewrite list_lookup_insert_eq by lia.
  - destruct (Z_le_gt_dec k JsArray.maxIndex) as [Hidx|Hbig].
    + array_cases;
        rewrite lookup_app_r by lia;
        rewrite lookup_app_r by (rewrite length_replicate; lia);
        rewrite length_replicate;
        by replace (Z.to_nat k - length (items a)
                    - Z.to_nat (k - Z.of_nat (length (items a))))%nat
          with O by lia.
    + array_cases; by rewrite lookup_insert_eq.
Qed.

Lemma array_get_set_other a k v j :
  0 <= j -> j <> k ->
  JsArray.get (JsArray.set a k v) j = JsArray.get a j.
Proof.
  intros Hj Hne.
  destruct (Z_lt_le_dec k (JsArray.len a)) as [Hin|Hout].
  - array_cases; try done; try (by rewrite list_lookup_insert_ne by lia);
      by rewrite lookup_insert_ne by done.
  - destruct (Z_le_gt_dec k JsArray.maxIndex) as [Hidx|Hbig];
      [destruct (Z_le_gt_dec 0 k) as [Hk|Hk]|].
    + destruct (Z_lt_le_dec j (JsArray.len a)) as [Hjin|Hjout].
      { array_cases; by rewrite lookup_app_l by lia. }
      array_cases; try done;
        rewrite (lookup_ge_None_2 (items a)) by lia;
        rewrite lookup_app_r by lia;
        (destruct (Z_lt_le_dec j k);
         [ rewrite lookup_app_l by (rewrite length_replicate; lia);
           by rewrite lookup_replicate_2 by lia
         | rewrite lookup_ge_None_2;
           [done | rewrite length_app, length_replicate; simpl; lia] ]).
    + array_cases; try done; by rewrite lookup_insert_ne by done.
    + array_cases; try done; by rewrite lookup_insert_ne by done.
Qed.

Lemma array_len_set a k v :
  0 <= k <= JsArray.maxIndex ->
  JsArray.len (JsArray.set a k v) = Z.max (JsArray.len a) (k + 1).
Proof. intros Hk. array_cases. Qed.

(** A key that names no slot leaves the slots alone. *)
Lemma array_items_set_property a k v :
  JsArray.is_slot a k = false ->
  items (JsArray.set a k v) = items a
  /\ props (JsArray.set a k v) = <[k := v]> (props a).
Proof. intros Hk. unfold JsArray.set. by rewrite Hk. Qed.

Lemma array_len_set_below a k v :
  k < JsArray.len a -> JsArray.len (JsArray.set a k v) = JsArray.len a.
Proof. intros Hk. array_cases. Qed.

(** Writing the same key again, into a copy, adds no slot. *)
Lemma array_len_set_again a k v v' :
  0 <= k ->
  JsArray.len
    (JsArray.set (JsArray.spread (JsArray.set (JsArray.spread a) k v)) k v')
  = JsArray.len (JsArray.set (JsArray.spread a) k v).
Proof.
  intros Hk.
  set (b := JsArray.set (JsArray.spread a) k v).
  destruct (Z_lt_le_dec k (JsArray.len b)) as [Hin|Hout].
  - exact (array_len_set_below (JsArray.spread b) k v' Hin).
  - assert (Hnot : JsArray.is_slot (JsArray.spread a) k = false).
    { destruct (JsArray.is_slot (JsArray.spread a) k) eqn:Hslot; [|done].
      exfalso. subst b. revert Hout Hslot. array_cases. }
    assert (Hitems : items b = items a).
    { subst b. by destruct (array_items_set_property _ k v Hnot). }
    assert (Hnot' : JsArray.is_slot (JsArray.spread b) k = false).
    { revert Hnot. unfold JsArray.is_slot, JsArray.len. simpl.
      by rewrite Hitems. }
    destruct (array_items_set_property _ k v' Hnot') as [Hsame _].
    unfold JsArray.len. by rewrite Hsame.
Qed.

Lemma array_len_spread a : JsArray.len (JsArray.spread a) = JsArray.len a.
Proof. done. Qed.

(** The copy reads like the original at every index. *)
Lemma array_get_spread a j :
  0 <= j <= JsArray.maxIndex ->
  JsArray.get (JsArray.spread a) j = JsArray.get a j.
Proof. intros Hj. array_cases; done. Qed.

End ArrayWrites.

Section Feedback.

Implicit Types (st : chunkedMessagesState) (s : StreamId) (k j now : Z).
Implicit Types (chunkFeedback : ChunkFeedback).

Lemma recordFeedback_feedback now s k chunkFeedback st :
  at_stream (feedback (recordFeedback now s k chunkFeedback st)) s
  = JsArray.set (JsArray.spread (at_stream (feedback st) s)) k
      (withTimestamp chunkFeedback now).
Proof. unfold recordFeedback. simpl. by rewrite at_with_stream_same. Qed.

Lemma recordFeedback_other_stream now s k chunkFeedback st s' :
  s' <> s ->
  at_stream (feedback (recordFeedback now s k chunkFeedback st)) s'
  = at_stream (feedback st) s'.
Proof.
  intros Hne. unfold recordFeedback. simpl.
  by rewrite at_with_stream_other.
Qed.




(** C4.  For an index inside the chunk list, [recordFeedback] stores at
    that index the entry made of the given rating, comment and selected
    text and of the current time, whatever was there before; the slots
    at the other indices read as before, and a state with one slot per
    chunk stays so; the selected text and the active feedback
    reference are cleared.  The same call made again, at a later time,
    [now'], leaves the same number of slots and the same other slots:
    the index holds one entry, with the time of the later call.  (The
    other indices are the array indices, up to [2^32 - 2]; what a state
    holds under a key above them is not a slot and is not copied.) *)
Theorem recordFeedback_in_range now now' s k chunkFeedback st :
  0 <= k < Z.of_nat (length (at_stream (chunks st) s)) ->
  getFeedbackForChunk (recordFeedback now s k chunkFeedback st) s k
  = Some (Feedback (rating chunkFeedback) (comment chunkFeedback)
                   (fb_selectedText chunkFeedback) (Some now))
  /\ (forall j, 0 <= j <= 4294967294 -> j <> k ->
        getFeedbackForChunk (recordFeedback now s k chunkFeedback st) s j
        = getFeedbackForChunk st s j)
  /\ (feedback_sized st s ->
      feedback_sized (recordFeedback now s k chunkFeedback st) s)
  /\ (forall s', s' <> s ->
        at_stream (feedback (recordFeedback now s k chunkFeedback st)) s'
        = at_stream (feedback st) s')
  /\ selectedText (recordFeedback now s k chunkFeedback st) = Some []
  /\ activeFeedback (recordFeedback now s k chunkFeedback st)
     = Some (Active None None)
  /\ getFeedbackForChunk
       (recordFeedback now' s k chunkFeedback
          (recordFeedback now s k chunkFeedback st)) s k
     = Some (Feedback (rating chunkFeedback) (comment chunkFeedback)
                      (fb_selectedText chunkFeedback) (Some now'))
  /\ JsArray.len
       (at_stream
          (feedback
             (recordFeedback now' s k chunkFeedback
                (recordFeedback now s k chunkFeedback st))) s)
     = JsArray.len
         (at_stream (feedback (recordFeedback now s k chunkFeedback st)) s)
  /\ (forall j, 0 <= j <= 4294967294 -> j <> k ->
        getFeedbackForChunk
          (recordFeedback now' s k chunkFeedback
             (recordFeedback now s k chunkFeedback st)) s j
        = getFeedbackForChunk st s j).
Proof.
  intros Hk. unfold getFeedbackForChunk, feedback_sized.
  rewrite !recordFeedback_feedback.
  split; [by apply array_get_set_same; lia|].
  split.
  { intros j Hj Hne. rewrite array_get_set_other by (done || lia).
    by apply array_get_spread. }
  split.
  { intros Hsized. rewrite array_len_set_below; [done|].
    rewrite array_len_spread. lia. }
  split; [intros s' Hne; by apply recordFeedback_other_stream|].
  split; [done|]. split; [done|].
  split; [by apply array_get_set_same; lia|].
  split.
  { apply array_len_set_again. lia. }
  intros j Hj Hne.
  rewrite array_get_set_other, array_get_spread by (done || lia).
  rewrite array_get_set_other by (done || lia). by apply array_get_spread.
Qed.

Lemma recordFeedback_in_range_witness :
  getFeedbackForChunk
    (recordFeedback 2000 Stream1 0 feedback_example
       (recordFeedback 1000 Stream1 0 feedback_example chunked_example))
    Stream1 0
  = Some (Feedback (Some positive) (Some [111; 107]) None (Some 2000)).
Proof.
  destruct (recordFeedback_in_range 1000 2000 Stream1 0 feedback_example
              chunked_example) as (_ & _ & _ & _ & _ & _ & Hagain & _).
  - simpl. lia.
  - exact Hagain.
Defined.

End Feedback.

(** ** Starting a feedback session *)

Section Session.

Implicit Types (st : chunkedMessagesState) (s : StreamId).

(** C6 as stated fails: with a response stored and no chunks yet,
    [startFeedbackSession] keeps the response instead of going back to
    the empty defaults. *)
Lemma startFeedbackSession_keeps_responses_counterexample :
  chunks unchunked_example = Streams [] []
  /\ responses (startFeedbackSession unchunked_example) = Streams [97] []
  /\ responses (startFeedbackSession unchunked_example)
     <> responses INITIAL_STATE.
Proof. repeat split; done. Qed.

(** C6, amended.  [startFeedbackSession] does the same whether chunks
    exist or not: both cursors become 0; each feedback array becomes one
    empty entry per current chunk (no entry when the stream has no
    chunk), so that the length and cursor invariants hold; [isChunked]
    becomes true; the responses and the chunks are kept, and so are
    [isComplete], the selected text and the active feedback reference.
    Nothing is cleared to its default because no chunks exist. *)
Theorem startFeedbackSession_restarts st :
  currentChunkIndices (startFeedbackSession st) = Streams 0 0
  /\ (forall s,
        at_stream (feedback (startFeedbackSession st)) s
        = JsArray (replicate (length (at_stream (chunks st) s))
                             (Some emptyFeedback)) ∅
        /\ feedback_sized (startFeedbackSession st) s
        /\ cursor_ok (startFeedbackSession st) s)
  /\ responses (startFeedbackSession st) = responses st
  /\ chunks (startFeedbackSession st) = chunks st
  /\ isChunked (startFeedbackSession st) = true
  /\ isComplete (startFeedbackSession st) = isComplete st
  /\ selectedText (startFeedbackSession st) = selectedText st
  /\ activeFeedback (startFeedbackSession st) = activeFeedback st.
Proof.
  split; [done|]. split; [|done].
  intros s. unfold feedback_sized, cursor_ok, JsArray.len.
  destruct s; simpl; rewrite length_replicate; repeat split; lia.
Qed.

End Session.

(** ** The active selection *)

Section Selection.

Implicit Types (st : chunkedMessagesState) (s : StreamId) (k : Z).
Implicit Types (text : jsstring).

(** Every action keeps [selection_ok], except a [setSelectedText] with
    the empty text. *)
Lemma dispatch_selection_ok fuel a st st' :
  dispatch fuel a st = Some st' ->
  (forall s k, a <> SetSelectedText [] s k) ->
  selection_ok st -> selection_ok st'.
Proof.
  intros Hstep Hnot Hok.
  destruct a; simpl in Hstep;
    try (injection Hstep as <-; first [exact Hok | by intros ? [=]]).
  - unfold completeStreams in Hstep.
    destruct (createChunks_inv _ _ _ _ Hstep) as (cs1 & cs2 & _ & _ & ->).
    exact Hok.
  - destruct (createChunks_inv _ _ _ _ Hstep) as (cs1 & cs2 & _ & _ & ->).
    exact Hok.
  - injection Hstep as <-. intros s' _. exists text. split; [done|].
    intros ->. by apply (Hnot s k).
Qed.

(** C7 as stated fails: [setSelectedText] with the empty text is not
    [clearSelectedText]; it leaves a stream reference next to an empty
    text. *)
Lemma setSelectedText_empty_counterexample :
  setSelectedText [] Stream1 0 chunked_example
  <> clearSelectedText chunked_example
  /\ selectedText (setSelectedText [] Stream1 0 chunked_example) = Some []
  /\ activeFeedback (setSelectedText [] Stream1 0 chunked_example)
     = Some (Active (Some Stream1) (Some 0))
  /\ ~ selection_ok (setSelectedText [] Stream1 0 chunked_example).
Proof.
  split; [discriminate|]. split; [done|]. split; [done|].
  intros Hok. destruct (Hok Stream1) as (text & Htext & Hne); [done|].
  simpl in Htext. by injection Htext as <-.
Qed.

(** C7, amended.  [setSelectedText] stores the text and the
    stream/chunk reference as given, also when the text is empty (it is
    never turned into a clear), so afterwards a stream is referred to
    only if the text is non-empty exactly when the given text is
    non-empty.  [clearSelectedText] resets the text to the empty string
    and the stream and chunk references to null together.  Both leave
    the rest of the state alone.  Every action other than
    [setSelectedText] with the empty text keeps the invariant. *)
Theorem selection_set_and_clear text s k st :
  selectedText (setSelectedText text s k st) = Some text
  /\ activeFeedback (setSelectedText text s k st)
     = Some (Active (Some s) (Some k))
  /\ (selection_ok (setSelectedText text s k st) <-> text <> [])
  /\ setSelectedText text s k st <> clearSelectedText st
  /\ selectedText (clearSelectedText st) = Some []
  /\ activeFeedback (clearSelectedText st) = Some (Active None None)
  /\ selection_ok (clearSelectedText st)
  /\ (forall st0,
        (st0 = setSelectedText text s k st \/ st0 = clearSelectedText st) ->
        responses st0 = responses st /\ chunks st0 = chunks st
        /\ feedback st0 = feedback st
        /\ currentChunkIndices st0 = currentChunkIndices st
        /\ isComplete st0 = isComplete st /\ isChunked st0 = isChunked st)
  /\ (forall fuel a st',
        dispatch fuel a st = Some st' ->
        (forall s0 k0, a <> SetSelectedText [] s0 k0) ->
        selection_ok st -> selection_ok st').
Proof.
  split; [done|]. split; [done|]. split.
  { split.
    - intros Hok. destruct (Hok s) as (text' & Htext & Hne); [done|].
      simpl in Htext. by injection Htext as <-.
    - intros Hne s' _. by exists text. }
  split; [discriminate|]. split; [done|]. split; [done|]. split.
  { by intros s' [=]. }
  split.
  { by intros st0 [-> | ->]. }
  intros fuel a st'. apply dispatch_selection_ok.
Qed.

End Selection.

(** ** The decorated chunk *)

Section Decoration.

Implicit Types (st : chunkedMessagesState) (s : StreamId) (k : Z).
Implicit Types (text chunk : jsstring) (acc : list jsstring).

(** Whatever the loop returns, it has pushed no empty chunk. *)
Lemma createTextChunks_loop_nonempty n text :
  0 < n ->
  forall fuel i acc out,
    0 <= i ->
    createTextChunks_loop fuel n text i acc = Some out ->
    Forall (fun chunk => chunk <> []) acc ->
    Forall (fun chunk => chunk <> []) out.
Proof.
  intros Hn fuel.
  induction fuel as [|fuel IH]; intros i acc out Hi Hrun Hacc;
    simpl in Hrun;
    destruct (Z.ltb_spec i (Z.of_nat (length text))) as [Hlt|Hge];
    try done; try (by injection Hrun as <-).
  apply (IH (i + n) _ _ ltac:(lia) Hrun).
  apply Forall_app. split; [exact Hacc|].
  apply Forall_singleton. intros Hempty.
  pose proof (substring_length text i
                (Z.min (i + n) (Z.of_nat (length text)))
                ltac:(lia) ltac:(lia) ltac:(lia)) as Hlen.
  rewrite Hempty in Hlen. simpl in Hlen. lia.
Qed.

Lemma createTextChunks_nonempty fuel n text cs :
  createTextChunks fuel n text = Some cs ->
  Forall (fun chunk => chunk <> []) cs.
Proof.
  unfold createTextChunks. destruct text as [|c text]; simpl JsString.truthy.
  - intros [= <-]. constructor.
  - intros Hrun. destruct (Z_lt_le_dec 0 n) as [Hpos|Hle].
    + by apply (createTextChunks_loop_nonempty n (c :: text) Hpos
                  fuel 0 [] cs).
    + rewrite createTextChunks_loop_diverges in Hrun; [done | done |].
      simpl length. lia.
Qed.

Lemma dispatch_chunks_nonempty fuel a st st' :
  dispatch fuel a st = Some st' ->
  chunks_nonempty st -> chunks_nonempty st'.
Proof.
  intros Hstep Hok.
  assert (Hchunked : forall size st0 st1,
             createChunks fuel size st0 = Some st1 -> chunks_nonempty st1).
  { intros size st0 st1 Hrun.
    destruct (createChunks_inv _ _ _ _ Hrun) as (cs1 & cs2 & H1 & H2 & ->).
    intros []; simpl; by eapply createTextChunks_nonempty. }
  destruct a; simpl in Hstep;
    try (injection Hstep as <-; first [exact Hok | by intros []; constructor]).
  - by eapply Hchunked.
  - by eapply Hchunked.
Qed.

Lemma reachable_chunks_nonempty st : reachable st -> chunks_nonempty st.
Proof.
  induction 1 as [|fuel a st st' _ IH Hstep].
  - intros []; constructor.
  - by eapply dispatch_chunks_nonempty.
Qed.

(** C10.  In every state the store can reach, [getDecoratedChunk] is the
    empty string where the stream has no chunk at the index; where it
    has one, it is the chunk between the two arrow decorations if the
    index is the stream's cursor and the bare chunk if not, and the two
    cases never coincide.  (It is a read: it returns a string and no
    state.) *)
Theorem getDecoratedChunk_spec st s k :
  reachable st ->
  (nth_chunk (at_stream (chunks st) s) k = None ->
   getDecoratedChunk st s k = [])
  /\ (forall chunk,
        nth_chunk (at_stream (chunks st) s) k = Some chunk ->
        (k = at_stream (currentChunkIndices st) s ->
         getDecoratedChunk st s k
         = [0x27A1; 0xFE0F; 0x20] ++ chunk ++ [0x20; 0x2B05; 0xFE0F])
        /\ (k <> at_stream (currentChunkIndices st) s ->
            getDecoratedChunk st s k = chunk)
        /\ (getDecoratedChunk st s k
            = [0x27A1; 0xFE0F; 0x20] ++ chunk ++ [0x20; 0x2B05; 0xFE0F]
            <-> k = at_stream (currentChunkIndices st) s)).
Proof.
  intros Hreach. unfold getDecoratedChunk. split.
  { by intros ->. }
  intros chunk Hchunk. rewrite Hchunk.
  assert (Hne : chunk <> []).
  { pose proof (reachable_chunks_nonempty st Hreach s) as Hall.
    rewrite Forall_forall in Hall. apply Hall.
    unfold nth_chunk in Hchunk. destruct (0 <=? k); [|done].
    by eapply list_elem_of_lookup_2. }
  destruct chunk as [|c chunk]; [done|]. simpl JsString.truthy. cbv iota.
  destruct (Z.eqb_spec k (at_stream (currentChunkIndices st) s)) as [Heq|Hneq].
  - repeat split; try done.
  - repeat split; try done.
    intros Hsame. apply (f_equal length) in Hsame.
    unfold Arrow.prefix, Arrow.suffix in Hsame.
    rewrite !length_app in Hsame. simpl in Hsame. lia.
Qed.

Lemma getDecoratedChunk_spec_witness :
  getDecoratedChunk chunked_example Stream1 0
  = [0x27A1; 0xFE0F; 0x20] ++ [65; 65] ++ [0x20; 0x2B05; 0xFE0F].
Proof.
  destruct (getDecoratedChunk_spec chunked_example Stream1 0
              chunked_example_reachable) as [_ Hsome].
  destruct (Hsome [65; 65]) as (Hshown & _); [reflexivity|].
  apply Hshown. reflexivity.
Defined.

(** Outside the reachable states the test [!chunks[chunkIndex]] also
    catches a chunk that is the empty string. *)
Example getDecoratedChunk_empty_chunk :
  getDecoratedChunk
    {| responses := Streams [] [];
       chunks := Streams [[]] [];
       feedback := Streams (createEmptyFeedback 1) (createEmptyFeedback 0);
       currentChunkIndices := Streams 0 0;
       isComplete := false;
       isChunked := false;
       selectedText := Some [];
       activeFeedback := Some (Active None None) |} Stream1 0 = [].
Proof. reflexivity. Qed.

End Decoration.

(** ** The stream-chat hook *)

Section StreamChatProperties.
Context {Rest : Type}.
Implicit Types (c : ConversationPublic Rest).
Implicit Types (convs out : list (ConversationPublic Rest)).

(** C9.  Applied to a cached list, [getUpdatedConversations] returns a
    list of the same length in which position [i] holds: the entry of
    position [i] with its description set to the given text (the empty
    string when none is given) and [updatedAt] set to the current time,
    if its id is the given conversation id; the very entry of position
    [i] otherwise.  The ids are the same in the same order: no entry is
    created or deleted.  An absent cache stays absent. *)
Theorem getUpdatedConversations_replaces_by_id
    (conversationId description : option jsstring) (now : jsstring) convs :
  exists out,
    getUpdatedConversations conversationId description now (Some convs)
    = Some out
    /\ length out = length convs
    /\ id <$> out = id <$> convs
    /\ (forall (i : nat) c,
          convs !! i = Some c ->
          (Some (id c) = conversationId ->
           out !! i
           = Some (Conversation (id c) (Some (default [] description))
                                (Some now) (rest c)))
          /\ (Some (id c) <> conversationId -> out !! i = Some c))
    /\ getUpdatedConversations (Rest := Rest) conversationId description now
         None = None.
Proof.
  eexists. split; [reflexivity|].
  split; [by rewrite length_map|]. split.
  { rewrite <- list_fmap_compose. apply list_fmap_ext.
    intros i c _. simpl. by destruct (decide _). }
  split; [|done].
  intros i c Hi. rewrite list_lookup_fmap, Hi. simpl.
  destruct (decide (Some (id c) = conversationId)); by split.
Qed.

Context {CohereNetworkError : Type}.
Variable isUnauthorizedError : CohereNetworkError -> bool.
Implicit Types (error : CohereNetworkError) (failCount : Z).

Lemma retry_true_iff failCount error :
  retry isUnauthorizedError failCount error = true
  <-> isUnauthorizedError error = true /\ failCount < 1.
Proof.
  unfold retry. destruct (isUnauthorizedError error).
  - rewrite Z.ltb_lt. tauto.
  - split; [done | by intros [? _]].
Qed.

(** C5.  [retry] answers false whenever a failure has already been
    counted ([failCount >= 1]) and whenever the error is not an
    authorization failure; in particular the second authorization
    failure, asked with [failCount = 1], is not retried. *)
Theorem retry_refuses failCount error :
  1 <= failCount \/ isUnauthorizedError error = false ->
  retry isUnauthorizedError failCount error = false.
Proof.
  intros Hcase. apply not_true_is_false. rewrite retry_true_iff.
  intros [Hauth Hfirst]. destruct Hcase as [Hcount | Hother]; [lia|].
  by rewrite Hother in Hauth.
Qed.

(** The first authorization failure is retried. *)
Lemma retry_first_authorization_failure error :
  isUnauthorizedError error = true ->
  retry isUnauthorizedError 0 error = true.
Proof. intros Hauth. by apply retry_true_iff. Qed.

Lemma retries_granted_after_first failCount (failures : list CohereNetworkError) :
  1 <= failCount ->
  retries_granted isUnauthorizedError failCount failures = O.
Proof.
  intros Hcount. destruct failures as [|error failures]; [done|]. simpl.
  destruct (retry isUnauthorizedError failCount error) eqn:Hretry; [|done].
  apply retry_true_iff in Hretry. lia.
Qed.

(** Counted from 0 by the runner, a session is started again at most
    once, and only after an authorization failure. *)
Lemma retries_granted_at_most_one (failures : list CohereNetworkError) :
  (retries_granted isUnauthorizedError 0 failures <= 1)%nat
  /\ (retries_granted isUnauthorizedError 0 failures = 1%nat ->
      exists error, head failures = Some error
                    /\ isUnauthorizedError error = true).
Proof.
  destruct failures as [|error failures]; simpl; [split; [lia | done]|].
  destruct (retry isUnauthorizedError 0 error) eqn:Hretry.
  - rewrite retries_granted_after_first by lia. split; [lia|].
    intros _. exists error. split; [done|].
    by apply retry_true_iff in Hretry as [? _].
  - split; [lia | done].
Qed.

End StreamChatProperties.

(** An error told apart by its HTTP status alone is enough to try the
    predicate: 401 twice in a row. *)
Lemma retry_refuses_witness :
  retry (fun status : Z => status =? 401) 1 401 = false.
Proof. apply (retry_refuses (fun status : Z => status =? 401) 1 401). left. lia. Defined.

(** * Further properties of the slice *)

Section ChunkingMore.

Implicit Types (st : chunkedMessagesState) (s : StreamId).

(** A chunk size of 0 or less: with a response to cut, [createChunks]
    never returns, whatever the number of iterations allowed; with both
    responses empty the loop is not entered and the state gets two empty
    chunk lists. *)
Theorem createChunks_nonpositive_size fuel n st :
  n <= 0 ->
  ((exists s, at_stream (responses st) s <> []) ->
   createChunks fuel (Some n) st = None)
  /\ (responses st = Streams [] [] ->
      chunks <$> createChunks fuel (Some n) st = Some (Streams [] [])).
Proof.
  intros Hn. unfold createChunks, createTextChunks. simpl default. split.
  - intros [s Hs].
    destruct (stream1 (responses st)) as [|c1 text1] eqn:H1; simpl JsString.truthy.
    + destruct (stream2 (responses st)) as [|c2 text2] eqn:H2.
      * destruct s; simpl in Hs; congruence.
      * simpl JsString.truthy. cbv iota. simpl.
        by rewrite (createTextChunks_loop_diverges n (c2 :: text2) Hn fuel 0 [])
          by (simpl length; lia).
    + cbv iota.
      by rewrite (createTextChunks_loop_diverges n (c1 :: text1) Hn fuel 0 [])
        by (simpl length; lia).
  - intros ->. reflexivity.
Qed.

Lemma createChunks_nonpositive_size_witness :
  createChunks 1000 (Some 0) chunking_example = None.
Proof.
  apply (createChunks_nonpositive_size 1000 0 chunking_example); [lia|].
  exists Stream1. discriminate.
Defined.

(** Chunking again with the same size changes nothing: the second
    [createChunks] returns the state the first one returned. *)
Theorem createChunks_idempotent fuel maxChunkSize st st' :
  createChunks fuel maxChunkSize st = Some st' ->
  createChunks fuel maxChunkSize st' = Some st'.
Proof.
  intros Hrun.
  destruct (createChunks_inv _ _ _ _ Hrun) as (cs1 & cs2 & H1 & H2 & ->).
  unfold createChunks. simpl. rewrite H1. simpl. rewrite H2. reflexivity.
Qed.

Lemma createChunks_idempotent_witness :
  createChunks 5 (Some 2) chunked_example = Some chunked_example.
Proof.
  apply (createChunks_idempotent 5 (Some 2) chunking_example). reflexivity.
Defined.

(** [completeStreams] leaves a consistent state behind: given as many
    iterations as the longer response has code units it returns, marks
    the streams complete, keeps the responses, and for each stream the
    chunks concatenate to the response, no chunk is empty or longer than
    800 code units, there is one empty feedback slot per chunk, and the
    cursor is 0, inside the chunk list. *)
Theorem completeStreams_consistent fuel st :
  (forall s, Z.of_nat (length (at_stream (responses st) s)) <= Z.of_nat fuel) ->
  exists st',
    completeStreams fuel st = Some st'
    /\ isComplete st' = true
    /\ responses st' = responses st
    /\ selectedText st' = selectedText st
    /\ activeFeedback st' = activeFeedback st
    /\ forall s,
         concat (at_stream (chunks st') s) = at_stream (responses st) s
         /\ Forall (fun chunk => 0 < Z.of_nat (length chunk) <= 800)
                   (at_stream (chunks st') s)
         /\ feedback_sized st' s
         /\ at_stream (currentChunkIndices st') s = 0
         /\ cursor_ok st' s
         /\ (forall k, 0 <= k < Z.of_nat (length (at_stream (chunks st') s)) ->
               getFeedbackForChunk st' s k = Some emptyFeedback).
Proof.
  intros Hfuel.
  destruct (createTextChunks_spec 800 (stream1 (responses st)) fuel
              ltac:(lia) (Hfuel Stream1)) as (cs1 & Hrun1 & Hcat1 & _ & Hnth1).
  destruct (createTextChunks_spec 800 (stream2 (responses st)) fuel
              ltac:(lia) (Hfuel Stream2)) as (cs2 & Hrun2 & Hcat2 & _ & Hnth2).
  eexists. split.
  { unfold completeStreams, createChunks. simpl.
    rewrite Hrun1. simpl. rewrite Hrun2. reflexivity. }
  do 4 (split; [reflexivity|]).
  assert (Hread : forall (count : nat) k,
             0 <= k < Z.of_nat count ->
             JsArray.get (createEmptyFeedback count) k = Some emptyFeedback).
  { intros count k Hk. unfold createEmptyFeedback, JsArray.filled.
    array_cases; by rewrite lookup_replicate_2 by lia. }
  intros s. unfold feedback_sized, cursor_ok, getFeedbackForChunk, JsArray.len.
  destruct s; simpl; rewrite length_replicate.
  - split; [done|]. split.
    { apply Forall_lookup. intros j chunk Hj. by apply (Hnth1 j chunk). }
    split; [done|]. split; [done|]. split; [lia|]. apply Hread.
  - split; [done|]. split.
    { apply Forall_lookup. intros j chunk Hj. by apply (Hnth2 j chunk). }
    split; [done|]. split; [done|]. split; [lia|]. apply Hread.
Qed.

Lemma completeStreams_consistent_witness :
  exists st',
    completeStreams 5 chunking_example = Some st'
    /\ isComplete st' = true.
Proof.
  destruct (completeStreams_consistent 5 chunking_example)
    as (st' & Hrun & Hdone & _).
  - intros []; simpl; lia.
  - by exists st'.
Defined.

(** [updateStreamContent] replaces, it does not append: the stream's
    response is the content given, whatever it was; the other response
    and the rest of the state stay; of two updates of one stream the
    later one wins, and updates of the two streams can be made in either
    order. *)
Theorem updateStreamContent_replaces s content content0 st :
  at_stream (responses (updateStreamContent s content st)) s = content
  /\ (forall s', s' <> s ->
        at_stream (responses (updateStreamContent s content st)) s'
        = at_stream (responses st) s')
  /\ chunks (updateStreamContent s content st) = chunks st
  /\ feedback (updateStreamContent s content st) = feedback st
  /\ currentChunkIndices (updateStreamContent s content st)
     = currentChunkIndices st
  /\ updateStreamContent s content (updateStreamContent s content0 st)
     = updateStreamContent s content st
  /\ (forall s', s' <> s ->
        updateStreamContent s content (updateStreamContent s' content0 st)
        = updateStreamContent s' content0 (updateStreamContent s content st)).
Proof.
  split; [by destruct s|]. split; [by intros [] ?; destruct s|].
  do 3 (split; [done|]). split; [by destruct s|].
  intros s' Hne. by destruct s, s'.
Qed.

End ChunkingMore.

Section FeedbackMore.

Implicit Types (st : chunkedMessagesState) (s : StreamId) (k j now : Z).
Implicit Types (chunkFeedback : ChunkFeedback).

Lemma array_get_set_any {A} (a : jsarray A) k (v : A) :
  JsArray.get (JsArray.set a k v) k = Some v.
Proof.
  destruct (Z_le_gt_dec 0 k) as [Hk|Hk]; [by apply array_get_set_same|].
  array_cases; by rewrite lookup_insert_eq.
Qed.

Lemma createEmptyFeedback_get (count : nat) k :
  JsArray.get (createEmptyFeedback count) k
  = if bool_decide (0 <= k < Z.of_nat count) then Some emptyFeedback else None.
Proof.
  unfold createEmptyFeedback, JsArray.filled.
  case_bool_decide; array_cases; try done;
    first [ by rewrite lookup_replicate_2 by lia
          | by rewrite lookup_ge_None_2 by (rewrite length_replicate; lia) ].
Qed.

(** What [recordFeedback] writes can be read back at the same index,
    for every integer index: inside the array, past its end, or
    negative.  The entry read has the time of the call as its timestamp,
    also when the entry given came with a timestamp of its own, and the
    given rating, comment and selected text.  Reads of the other stream
    are not affected. *)
Theorem recordFeedback_read_back now s k chunkFeedback st :
  getFeedbackForChunk (recordFeedback now s k chunkFeedback st) s k
  = Some (Feedback (rating chunkFeedback) (comment chunkFeedback)
                   (fb_selectedText chunkFeedback) (Some now))
  /\ (forall s' j, s' <> s ->
        getFeedbackForChunk (recordFeedback now s k chunkFeedback st) s' j
        = getFeedbackForChunk st s' j).
Proof.
  unfold getFeedbackForChunk. split.
  - rewrite recordFeedback_feedback. apply array_get_set_any.
  - intros s' j Hne. by rewrite recordFeedback_other_stream.
Qed.

(** An entry written at an array index (0 up to [2^32 - 2]) outlives
    later writes at other indices of its stream.  An entry written
    under any other key, a negative one or one above [2^32 - 2], does
    not: it is no slot of the array, the next [recordFeedback] on that
    stream under another key copies the slots only, and the entry is
    gone.  (For the keys above [2^32 - 2] the array is one the engine
    can hold, of at most [2^32 - 1] slots.) *)
Theorem recordFeedback_keeps_slots_only now now' s k k' chunkFeedback
    chunkFeedback' st :
  k' <> k ->
  (0 <= k <= 4294967294 ->
   getFeedbackForChunk
     (recordFeedback now' s k' chunkFeedback'
        (recordFeedback now s k chunkFeedback st)) s k
   = Some (withTimestamp chunkFeedback now))
  /\ (k < 0
      \/ (4294967294 < k
          /\ JsArray.len (at_stream (feedback st) s) <= 4294967295) ->
      getFeedbackForChunk
        (recordFeedback now' s k' chunkFeedback'
           (recordFeedback now s k chunkFeedback st)) s k
      = None).
Proof.
  intros Hne. unfold getFeedbackForChunk. rewrite !recordFeedback_feedback.
  split; intros Hk.
  - rewrite array_get_set_other, array_get_spread by (done || lia).
    apply array_get_set_same. lia.
  - set (a := at_stream (feedback st) s) in *.
    assert (Hnot : JsArray.is_slot (JsArray.spread a) k = false)
      by (revert Hk; array_cases).
    destruct (array_items_set_property _ k (withTimestamp chunkFeedback now)
                Hnot) as [Hitems _].
    set (b := JsArray.set (JsArray.spread a) k (withTimestamp chunkFeedback now))
      in *.
    assert (Hlen : JsArray.len (JsArray.spread b) = JsArray.len a).
    { unfold JsArray.len. simpl. by rewrite Hitems. }
    destruct (JsArray.is_slot (JsArray.spread b) k') eqn:Hslot'.
    + assert (Hbound : JsArray.len
                         (JsArray.set (JsArray.spread b) k'
                            (withTimestamp chunkFeedback' now'))
                       <= Z.max (JsArray.len a) 4294967295).
      { destruct (Z_lt_le_dec k' (JsArray.len (JsArray.spread b))) as [Hin|Hout].
        - rewrite array_len_set_below by done. lia.
        - assert (Hidx : 0 <= k' <= JsArray.maxIndex)
            by (revert Hslot' Hout; array_cases).
          rewrite array_len_set by done. rewrite Hlen.
          unfold JsArray.maxIndex in Hidx. lia. }
      assert (Hprops : props
                         (JsArray.set (JsArray.spread b) k'
                            (withTimestamp chunkFeedback' now')) = ∅).
      { unfold JsArray.set. rewrite Hslot'. by destruct (_ <? _). }
      unfold JsArray.get. rewrite Hprops.
      replace (JsArray.is_slot _ k) with false; [apply lookup_empty|].
      symmetry. revert Hbound Hk. generalize (JsArray.set (JsArray.spread b) k'
                                                (withTimestamp chunkFeedback' now')).
      intros c. unfold a. array_cases.
    + destruct (array_items_set_property _ k'
                  (withTimestamp chunkFeedback' now') Hslot') as [Hitems' Hprops'].
      unfold JsArray.get. rewrite Hprops'.
      replace (JsArray.is_slot _ k) with false.
      { rewrite lookup_insert_ne by done. apply lookup_empty. }
      symmetry. revert Hk. unfold JsArray.is_slot, JsArray.len.
      rewrite Hitems'. simpl. rewrite Hitems. unfold a. array_cases.
Qed.

(** The key [2^32 - 1], one past the last index. *)
Lemma recordFeedback_keeps_slots_only_witness :
  getFeedbackForChunk
    (recordFeedback 2000 Stream1 0 feedback_example
       (recordFeedback 1000 Stream1 4294967295 feedback_example
          chunked_example))
    Stream1 4294967295
  = None.
Proof.
  destruct (recordFeedback_keeps_slots_only 1000 2000 Stream1 4294967295 0
              feedback_example feedback_example chunked_example) as [_ Hgone].
  - lia.
  - apply Hgone. right. split; [lia|]. unfold JsArray.len. simpl. lia.
Defined.

(** At [2^32 - 1] the write adds no slot; it is read back under its key
    until the next write to the stream. *)
Example recordFeedback_past_last_index :
  JsArray.len
    (at_stream
       (feedback
          (recordFeedback 1000 Stream1 4294967295 feedback_example
             chunked_example)) Stream1) = 3
  /\ getFeedbackForChunk
       (recordFeedback 1000 Stream1 4294967295 feedback_example
          chunked_example) Stream1 4294967295
     = Some (withTimestamp feedback_example 1000).
Proof. split; reflexivity. Qed.

(** Below the end of the chunk list [recordFeedback] keeps the number
    of slots. *)
Lemma recordFeedback_below_end now s k chunkFeedback st :
  k < Z.of_nat (length (at_stream (chunks st) s)) ->
  (forall s', feedback_sized st s') ->
  forall s', feedback_sized (recordFeedback now s k chunkFeedback st) s'.
Proof.
  intros Hguard Hok s'. unfold feedback_sized in *. simpl chunks.
  destruct (decide (s' = s)) as [->|Hne].
  - rewrite recordFeedback_feedback. specialize (Hok s).
    destruct (Z_le_gt_dec 0 k) as [Hk|Hk].
    + rewrite array_len_set_below; [exact Hok|].
      rewrite array_len_spread. lia.
    + destruct (array_items_set_property
                  (JsArray.spread (at_stream (feedback st) s)) k
                  (withTimestamp chunkFeedback now)) as [Hitems _].
      { array_cases. }
      unfold JsArray.len in *. by rewrite Hitems.
  - rewrite recordFeedback_other_stream by done. apply Hok.
Qed.

(** One feedback slot per chunk is kept by every action, as long as
    [recordFeedback] is not given an index at or past the end of the
    chunk list. *)
Theorem dispatch_feedback_sized fuel a st st' :
  dispatch fuel a st = Some st' ->
  (forall now s k chunkFeedback,
     a = RecordFeedback now s k chunkFeedback ->
     k < Z.of_nat (length (at_stream (chunks st) s))) ->
  (forall s, feedback_sized st s) ->
  forall s, feedback_sized st' s.
Proof.
  intros Hstep Hguard Hok s.
  assert (Hfresh : forall cs1 cs2 : list jsstring,
             JsArray.len
               (at_stream (Streams (createEmptyFeedback (length cs1))
                                   (createEmptyFeedback (length cs2))) s)
             = Z.of_nat (length (at_stream (Streams cs1 cs2) s))).
  { intros cs1 cs2. unfold JsArray.len.
    destruct s; simpl; by rewrite length_replicate. }
  destruct a; simpl in Hstep;
    try (injection Hstep as <-; first [exact (Hok s) | apply Hfresh]).
  - unfold completeStreams in Hstep.
    destruct (createChunks_inv _ _ _ _ Hstep) as (cs1 & cs2 & _ & _ & ->).
    apply Hfresh.
  - destruct (createChunks_inv _ _ _ _ Hstep) as (cs1 & cs2 & _ & _ & ->).
    apply Hfresh.
  - injection Hstep as <-. apply recordFeedback_below_end; [|done].
    by apply (Hguard now s0 k chunkFeedback).
  - injection Hstep as <-. by destruct s.
Qed.

Lemma dispatch_feedback_sized_witness :
  feedback_sized
    (recordFeedback 1000 Stream1 2 feedback_example chunked_example) Stream1.
Proof.
  apply (dispatch_feedback_sized 0
           (RecordFeedback 1000 Stream1 2 feedback_example) chunked_example).
  - reflexivity.
  - intros now s k chunkFeedback [= _ <- <- _]. simpl. lia.
  - intros []; reflexivity.
Defined.

(** Starting a session, resetting everything and chunking all erase the
    recorded feedback: afterwards every index inside the chunk list
    reads as the empty entry and every other index, negative ones
    included, reads as nothing. *)
Theorem restart_erases_feedback st s k :
  getFeedbackForChunk (startFeedbackSession st) s k
  = (if bool_decide (0 <= k < Z.of_nat (length (at_stream (chunks st) s)))
     then Some emptyFeedback else None)
  /\ getFeedbackForChunk (resetEverything st) s k
     = (if bool_decide (0 <= k < Z.of_nat (length (at_stream (chunks st) s)))
        then Some emptyFeedback else None)
  /\ (forall fuel maxChunkSize st',
        createChunks fuel maxChunkSize st = Some st' ->
        getFeedbackForChunk st' s k
        = (if bool_decide
                (0 <= k < Z.of_nat (length (at_stream (chunks st') s)))
           then Some emptyFeedback else None)).
Proof.
  unfold getFeedbackForChunk. split; [|split].
  - destruct s; simpl; apply createEmptyFeedback_get.
  - destruct s; simpl; apply createEmptyFeedback_get.
  - intros fuel maxChunkSize st' Hrun.
    destruct (createChunks_inv _ _ _ _ Hrun) as (cs1 & cs2 & _ & _ & ->).
    destruct s; simpl; apply createEmptyFeedback_get.
Qed.

End FeedbackMore.

Section CursorsMore.

Implicit Types (st : chunkedMessagesState) (s : StreamId).

Lemma showNextChunkForStream_iter_chunks (m : nat) s st :
  chunks (Nat.iter m (showNextChunkForStream s) st) = chunks st.
Proof. induction m as [|m IH]; [done|]. simpl. exact IH. Qed.

(** Advancing one stream [m] times from a cursor that is not past the
    last index moves it [m] chunks on, and no further than the last
    index: once there, more advances change nothing.  The other cursor
    stays where it is. *)
Theorem showNextChunkForStream_iter (m : nat) s st :
  at_stream (currentChunkIndices st) s
  <= Z.max 0 (Z.of_nat (length (at_stream (chunks st) s)) - 1) ->
  at_stream (currentChunkIndices (Nat.iter m (showNextChunkForStream s) st)) s
  = Z.min (at_stream (currentChunkIndices st) s + Z.of_nat m)
          (Z.max 0 (Z.of_nat (length (at_stream (chunks st) s)) - 1))
  /\ (forall s', s' <> s ->
        at_stream
          (currentChunkIndices (Nat.iter m (showNextChunkForStream s) st)) s'
        = at_stream (currentChunkIndices st) s').
Proof.
  intros Hle. induction m as [|m [IHs IHo]].
  - split; [simpl; lia | done].
  - split.
    + simpl Nat.iter. unfold showNextChunkForStream at 1. simpl.
      rewrite at_with_stream_same, IHs, showNextChunkForStream_iter_chunks.
      lia.
    + intros s' Hne. simpl Nat.iter. unfold showNextChunkForStream at 1. simpl.
      rewrite at_with_stream_other by done. by apply IHo.
Qed.

Lemma showNextChunkForStream_iter_witness :
  at_stream
    (currentChunkIndices
       (Nat.iter 5 (showNextChunkForStream Stream1) chunked_example)) Stream1
  = 2.
Proof.
  destruct (showNextChunkForStream_iter 5 Stream1 chunked_example)
    as [Hthere _].
  - simpl. lia.
  - rewrite Hthere. reflexivity.
Defined.

(** When both streams have chunks, the two-stream advance is the two
    single-stream advances, made in either order. *)
Theorem showNextChunk_both_advances st :
  stream1 (chunks st) <> [] ->
  stream2 (chunks st) <> [] ->
  showNextChunk st
  = showNextChunkForStream Stream1 (showNextChunkForStream Stream2 st)
  /\ showNextChunk st
     = showNextChunkForStream Stream2 (showNextChunkForStream Stream1 st).
Proof.
  intros H1 H2. unfold showNextChunk, showNextChunkForStream. simpl.
  destruct (stream1 (chunks st)) as [|c1 cs1]; [done|].
  destruct (stream2 (chunks st)) as [|c2 cs2]; [done|].
  replace (Z.max 0 (Z.of_nat (length (c1 :: cs1)) - 1))
    with (Z.of_nat (length (c1 :: cs1)) - 1) by (simpl length; lia).
  replace (Z.max 0 (Z.of_nat (length (c2 :: cs2)) - 1))
    with (Z.of_nat (length (c2 :: cs2)) - 1) by (simpl length; lia).
  done.
Qed.

Lemma showNextChunk_both_advances_witness :
  showNextChunk chunked_example
  = showNextChunkForStream Stream1
      (showNextChunkForStream Stream2 chunked_example).
Proof.
  apply (showNextChunk_both_advances chunked_example); discriminate.
Defined.

(** The single-stream advance, as an action on [chunked_example]. *)
Lemma dispatch_cursor_ok_witness :
  cursor_ok (showNextChunkForStream Stream1 chunked_example) Stream1.
Proof.
  apply (dispatch_cursor_ok 0 (ShowNextChunkForStream Stream1)
           chunked_example).
  - reflexivity.
  - discriminate.
  - discriminate.
  - intros []; unfold cursor_ok; simpl; lia.
Defined.

End CursorsMore.

Section SelectorMore.

Implicit Types (st : chunkedMessagesState) (s : StreamId).

(** [getSelectedTextFeedback] fails right after [resetEverything], which
    rebuilds the state without [selectedText] and [activeFeedback]; it
    answers again, with an empty selection, once a [clearSelectedText] or
    a [recordFeedback] has put the two fields back, and with the new
    selection after a [setSelectedText].  No other action removes the
    fields: from a state where the selector answers, every action but
    [resetEverything] leads to a state where it answers. *)
Theorem getSelectedTextFeedback_after_reset st :
  getSelectedTextFeedback (resetEverything st) = None
  /\ getSelectedTextFeedback (clearSelectedText (resetEverything st))
     = Some (SelectedFeedback (Some []) None None)
  /\ (forall now s k chunkFeedback,
        getSelectedTextFeedback
          (recordFeedback now s k chunkFeedback (resetEverything st))
        = Some (SelectedFeedback (Some []) None None))
  /\ (forall text s k,
        getSelectedTextFeedback (setSelectedText text s k (resetEverything st))
        = Some (SelectedFeedback (Some text) (Some s) (Some k)))
  /\ (forall fuel a st',
        dispatch fuel a st = Some st' ->
        a <> ResetEverything ->
        is_Some (getSelectedTextFeedback st) ->
        is_Some (getSelectedTextFeedback st')).
Proof.
  do 4 (split; [done|]).
  intros fuel a st' Hstep Hnot Hsome.
  assert (Hkeep : forall st0, activeFeedback st0 = activeFeedback st ->
                              is_Some (getSelectedTextFeedback st0)).
  { intros st0 Heq. unfold getSelectedTextFeedback in *. rewrite Heq.
    by destruct (activeFeedback st). }
  destruct a; simpl in Hstep;
    try (injection Hstep as <-; first [by apply Hkeep | by eexists]).
  - unfold completeStreams in Hstep.
    destruct (createChunks_inv _ _ _ _ Hstep) as (cs1 & cs2 & _ & _ & ->).
    by apply Hkeep.
  - destruct (createChunks_inv _ _ _ _ Hstep) as (cs1 & cs2 & _ & _ & ->).
    by apply Hkeep.
Qed.

End SelectorMore.

(** * Properties of the components *)

Section VisibleText.

Implicit Types (st : chunkedMessagesState) (s : StreamId).
Implicit Types (text chunk : jsstring) (cs acc : list jsstring).

(** More fuel does not change what the loop returns. *)
Lemma createTextChunks_loop_fuel_mono n text fuel :
  forall fuel' i acc out,
    (fuel <= fuel')%nat ->
    createTextChunks_loop fuel n text i acc = Some out ->
    createTextChunks_loop fuel' n text i acc = Some out.
Proof.
  induction fuel as [|fuel IH]; intros fuel' i acc out Hle Hrun;
    simpl in Hrun;
    destruct (Z.ltb_spec i (Z.of_nat (length text))) as [Hlt|Hge]; try done.
  - destruct fuel'; simpl; by destruct (Z.ltb_spec i (Z.of_nat (length text)));
      [lia|].
  - destruct fuel' as [|fuel']; [lia|]. simpl.
    destruct (Z.ltb_spec i (Z.of_nat (length text))); [|lia].
    apply IH; [lia | done].
  - destruct fuel'; simpl; by destruct (Z.ltb_spec i (Z.of_nat (length text)));
      [lia|].
Qed.

(** The shape of whatever [createTextChunks] returns for a positive
    size. *)
Lemma createTextChunks_returned n text fuel cs :
  0 < n ->
  createTextChunks fuel n text = Some cs ->
  concat cs = text
  /\ Z.of_nat (length cs) = ceil_div (Z.of_nat (length text)) n
  /\ forall (j : nat) chunk,
       cs !! j = Some chunk ->
       chunk = JsString.substring text (Z.of_nat j * n)
                 (Z.min ((Z.of_nat j + 1) * n) (Z.of_nat (length text))).
Proof.
  intros Hn Hrun.
  destruct (createTextChunks_spec n text (fuel + length text) Hn ltac:(lia))
    as (cs' & Hrun' & Hcat & Hlen & Hnth).
  assert (cs' = cs) as ->.
  { unfold createTextChunks in *. destruct (JsString.truthy text).
    - apply (createTextChunks_loop_fuel_mono _ _ _ (fuel + length text)%nat)
        in Hrun; [congruence | lia].
    - congruence. }
  split; [done|]. split; [done|].
  intros j chunk Hj. by apply Hnth.
Qed.

(** The first [m] chunks make up the first [m * n] code units. *)
Lemma chunks_prefix n text cs :
  0 < n ->
  concat cs = text ->
  Z.of_nat (length cs) = ceil_div (Z.of_nat (length text)) n ->
  (forall (j : nat) chunk,
     cs !! j = Some chunk ->
     chunk = JsString.substring text (Z.of_nat j * n)
               (Z.min ((Z.of_nat j + 1) * n) (Z.of_nat (length text)))) ->
  forall m : nat,
    concat (take m cs) = take (Z.to_nat (Z.of_nat m * n)) text.
Proof.
  intros Hn Hcat Hlen Hnth m.
  pose proof (ceil_div_bounds (Z.of_nat (length text)) n Hn) as Hceil.
  induction m as [|m IH]; [done|].
  destruct (cs !! m) as [chunk|] eqn:Hm.
  - rewrite (take_S_r _ _ _ Hm), concat_app, IH. simpl. rewrite app_nil_r.
    pose proof (lookup_lt_Some _ _ _ Hm) as Hlt.
    rewrite (Hnth m chunk Hm), substring_inside by nia.
    rewrite take_take_drop.
    destruct (Z_le_gt_dec ((Z.of_nat m + 1) * n) (Z.of_nat (length text))).
    + f_equal. lia.
    + rewrite !take_ge by lia. done.
  - apply lookup_ge_None_1 in Hm.
    rewrite take_ge in IH by lia. rewrite take_ge by lia. rewrite IH.
    rewrite !take_ge by nia. done.
Qed.

Lemma visibleText_concat cs (c : Z) :
  MessageStreamColumn.visibleText cs c = concat (take (Z.to_nat (c + 1)) cs).
Proof.
  unfold MessageStreamColumn.visibleText.
  induction (Z.to_nat (c + 1)) as [|m IH]; [done|].
  rewrite seq_S, foldl_app, IH. simpl.
  destruct (cs !! m) as [chunk|] eqn:Hm.
  - rewrite (take_S_r _ _ _ Hm), concat_app. simpl. rewrite app_nil_r.
    destruct chunk; simpl; [by rewrite app_nil_r | done].
  - apply lookup_ge_None_1 in Hm. by rewrite !take_ge by lia.
Qed.

(** What a column shows of a chunked response: with the cursor at [c],
    the first [(c + 1) * n] code units of the response, where [n] is the
    chunk size; so the whole response once the cursor is at the last
    chunk (or past it), and nothing for a negative cursor. *)
Theorem visibleText_prefix fuel maxChunkSize st st' s (c : Z) :
  0 < default 800 maxChunkSize ->
  createChunks fuel maxChunkSize st = Some st' ->
  MessageStreamColumn.visibleText (at_stream (chunks st') s) c
  = take (Z.to_nat ((c + 1) * default 800 maxChunkSize))
         (at_stream (responses st') s)
  /\ (Z.of_nat (length (at_stream (chunks st') s)) - 1 <= c ->
      MessageStreamColumn.visibleText (at_stream (chunks st') s) c
      = at_stream (responses st') s)
  /\ (c < 0 ->
      MessageStreamColumn.visibleText (at_stream (chunks st') s) c = []).
Proof.
  intros Hn Hrun. set (n := default 800 maxChunkSize) in *.
  destruct (createChunks_inv _ _ _ _ Hrun) as (cs1 & cs2 & H1 & H2 & ->).
  fold n in H1, H2.
  assert (Hshape :
    concat (at_stream (Streams cs1 cs2) s) = at_stream (responses st) s
    /\ Z.of_nat (length (at_stream (Streams cs1 cs2) s))
       = ceil_div (Z.of_nat (length (at_stream (responses st) s))) n
    /\ forall (j : nat) chunk,
         at_stream (Streams cs1 cs2) s !! j = Some chunk ->
         chunk = JsString.substring (at_stream (responses st) s)
                   (Z.of_nat j * n)
                   (Z.min ((Z.of_nat j + 1) * n)
                          (Z.of_nat (length (at_stream (responses st) s))))).
  { destruct s; simpl; by eapply createTextChunks_returned. }
  destruct Hshape as (Hcat & Hlen & Hnth). simpl chunks. simpl responses.
  rewrite visibleText_concat.
  split; [|split].
  - rewrite (chunks_prefix n _ _ Hn Hcat Hlen Hnth). f_equal.
    destruct (Z_le_gt_dec 0 (c + 1)); [by rewrite Z2Nat.id by lia|].
    replace (Z.to_nat (c + 1)) with O by lia.
    assert ((c + 1) * n <= 0) by nia. simpl. lia.
  - intros Hlast. by rewrite take_ge by lia.
  - intros Hneg. by replace (Z.to_nat (c + 1)) with O by lia.
Qed.

Lemma visibleText_prefix_witness :
  MessageStreamColumn.visibleText (at_stream (chunks chunked_example) Stream1) 1
  = take (Z.to_nat ((1 + 1) * 2)) (at_stream (responses chunked_example) Stream1).
Proof.
  apply (visibleText_prefix 5 (Some 2) chunking_example chunked_example
           Stream1 1).
  - simpl. lia.
  - reflexivity.
Defined.

End VisibleText.

Section Panel.

Implicit Types (st : chunkedMessagesState) (s : StreamId).
Implicit Types (typed highlightedText text : jsstring) (now : Z).

(** Record at the cursor, perhaps clear the selection, advance both. *)
Lemma record_then_advance (clear : bool) now s chunkFeedback st :
  (forall s', at_stream (chunks st) s' <> []) ->
  (forall s', cursor_ok st s') ->
  (forall s', feedback_sized st s') ->
  let st' :=
    showNextChunk
      ((if clear then clearSelectedText else fun st0 => st0)
         (recordFeedback now s (at_stream (currentChunkIndices st) s)
            chunkFeedback st)) in
  getFeedbackForChunk st' s (at_stream (currentChunkIndices st) s)
  = Some (withTimestamp chunkFeedback now)
  /\ (forall s',
        feedback_sized st' s' /\ cursor_ok st' s'
        /\ at_stream (currentChunkIndices st') s'
           = Z.min (at_stream (currentChunkIndices st) s' + 1)
                   (Z.of_nat (length (at_stream (chunks st) s')) - 1))
  /\ selectedText st' = Some []
  /\ activeFeedback st' = Some (Active None None)
  /\ chunks st' = chunks st
  /\ responses st' = responses st.
Proof.
  intros Hchunks Hcursor Hsized st'.
  assert (Hfb : feedback st'
                = feedback (recordFeedback now s
                              (at_stream (currentChunkIndices st) s)
                              chunkFeedback st)).
  { subst st'. by destruct clear. }
  assert (Hsized' : forall s', feedback_sized st' s').
  { intros s'. unfold feedback_sized. rewrite Hfb.
    replace (chunks st') with (chunks st) by (subst st'; by destruct clear).
    change (feedback_sized
              (recordFeedback now s (at_stream (currentChunkIndices st) s)
                 chunkFeedback st) s').
    apply recordFeedback_below_end; [|done]. specialize (Hcursor s).
    specialize (Hchunks s). unfold cursor_ok in Hcursor.
    destruct (at_stream (chunks st) s); [done | simpl length in *; lia]. }
  split.
  { unfold getFeedbackForChunk. rewrite Hfb, recordFeedback_feedback.
    apply array_get_set_any. }
  split.
  { intros s'. split; [apply Hsized'|].
    specialize (Hcursor s'). specialize (Hchunks s').
    unfold cursor_ok in *. subst st'.
    destruct clear, s'; simpl in *;
      match goal with
      | H : ?cs <> [] |- _ => destruct cs; [done | simpl length in *; lia]
      end. }
  subst st'. by destruct clear.
Qed.

(** The click handlers of both versions of the panel, on a state where
    both streams have chunks, every cursor is in range and there is one
    feedback slot per chunk: the entry lands in the slot of the chunk
    shown, with the trimmed comment and with the time read by the store
    (the time the panel put in is overwritten); both cursors move one
    chunk on, up to the last; the selection is cleared; and the state
    still has every cursor in range and one slot per chunk. *)
Theorem panel_handlers_keep_invariants typed highlightedText (clock : Z) now s
    st (handler : chunkedMessagesState -> chunkedMessagesState) :
  handler ∈ [FeedbackPanel.V1.handleThumbsUp typed clock now s;
             FeedbackPanel.V1.handleThumbsDown typed clock now s;
             FeedbackPanel.V1.handleSaveComment typed clock now s;
             FeedbackPanel.V2.handlePreferSection typed highlightedText
               clock now s;
             FeedbackPanel.V2.handleSubmitFeedback typed highlightedText
               clock now s] ->
  (forall s', at_stream (chunks st) s' <> []) ->
  (forall s', cursor_ok st s') ->
  (forall s', feedback_sized st s') ->
  (exists entry,
     getFeedbackForChunk (handler st) s (at_stream (currentChunkIndices st) s)
     = Some entry
     /\ timestamp entry = Some now
     /\ comment entry = Some (trim typed))
  /\ (forall s',
        feedback_sized (handler st) s' /\ cursor_ok (handler st) s'
        /\ at_stream (currentChunkIndices (handler st)) s'
           = Z.min (at_stream (currentChunkIndices st) s' + 1)
                   (Z.of_nat (length (at_stream (chunks st) s')) - 1))
  /\ selectedText (handler st) = Some []
  /\ activeFeedback (handler st) = Some (Active None None)
  /\ chunks (handler st) = chunks st
  /\ responses (handler st) = responses st.
Proof.
  intros Hin Hchunks Hcursor Hsized.
  assert (Hshape : exists (clear : bool) chunkFeedback,
             comment chunkFeedback = Some (trim typed)
             /\ handler st
                = showNextChunk
                    ((if clear then clearSelectedText else fun st0 => st0)
                       (recordFeedback now s
                          (at_stream (currentChunkIndices st) s)
                          chunkFeedback st))).
  { rewrite !elem_of_cons, elem_of_nil in Hin.
    destruct Hin as [-> | [-> | [-> | [-> | [-> | []]]]]].
    - by exists true, (FeedbackPanel.V1.prepareFeedbackWithSelection
                         typed clock (Some positive) s st).
    - by exists true, (FeedbackPanel.V1.prepareFeedbackWithSelection
                         typed clock (Some negative) s st).
    - by exists true, (FeedbackPanel.V1.prepareFeedbackWithSelection
                         typed clock
                         (FeedbackPanel.getFeedbackSafely st s ≫= rating) s st).
    - by exists true, (FeedbackPanel.V2.prepareFeedbackWithSelection
                         typed highlightedText clock (Some positive) s st).
    - by exists false, (FeedbackPanel.V2.prepareFeedbackWithSelection
                          typed highlightedText clock None s st). }
  destruct Hshape as (clear & chunkFeedback & Hcomment & ->).
  destruct (record_then_advance clear now s chunkFeedback st Hchunks Hcursor
              Hsized) as (Hread & Hrest).
  split; [|exact Hrest].
  exists (withTimestamp chunkFeedback now). by split.
Qed.

(** Two panels over [chunked_example]: a thumbs up on the first. *)
Lemma panel_handlers_keep_invariants_witness :
  selectedText
    (FeedbackPanel.V1.handleThumbsUp [32; 111; 107] 999 1000 Stream1
       chunked_example)
  = Some [].
Proof.
  destruct (panel_handlers_keep_invariants [32; 111; 107] [] 999 1000 Stream1
              chunked_example
              (FeedbackPanel.V1.handleThumbsUp [32; 111; 107] 999 1000
                 Stream1)) as (_ & _ & Hcleared & _).
  - apply list_elem_of_here.
  - intros []; discriminate.
  - intros []; unfold cursor_ok; simpl; lia.
  - intros []; reflexivity.
  - exact Hcleared.
Defined.

(** Whatever the browser reports as selected, the listeners of the
    column and of both versions of the panel keep the selection of the
    store consistent: they store a text only if it is not empty (the
    panels after trimming), so a stream is referred to only next to a
    non-empty text. *)
Theorem selection_listeners_keep_selection_ok (selection : option jsstring)
    (isInThisStream : bool) s (currentIndex : Z) st :
  selection_ok st ->
  selection_ok (MessageStreamColumn.handleMouseUp selection s currentIndex st)
  /\ selection_ok (FeedbackPanel.V1.handleMouseUp selection isInThisStream s st)
  /\ selection_ok (FeedbackPanel.V2.handleMouseUp selection isInThisStream s st)
  /\ selection_ok (FeedbackPanel.handleDocumentClick selection st).
Proof.
  intros Hok.
  assert (Hclear : selection_ok (clearSelectedText st)) by (by intros ? [=]).
  assert (Hset : forall text k,
             JsString.truthy text = true ->
             selection_ok (setSelectedText text s k st)).
  { intros text k Htext s' _. exists text. split; [done|]. by intros ->. }
  unfold MessageStreamColumn.handleMouseUp, FeedbackPanel.V1.handleMouseUp,
    FeedbackPanel.V2.handleMouseUp, FeedbackPanel.handleDocumentClick.
  destruct selection as [raw|]; [|done].
  destruct (JsString.truthy raw) eqn:Hraw,
           (JsString.truthy (trim raw)) eqn:Htrim, isInThisStream;
    repeat split; auto.
Qed.

Lemma selection_listeners_keep_selection_ok_witness :
  selection_ok
    (FeedbackPanel.V1.handleMouseUp (Some [32; 32]) true Stream1
       chunked_example).
Proof.
  apply (selection_listeners_keep_selection_ok (Some [32; 32]) true Stream1 0
           chunked_example).
  by intros ? [=].
Defined.

End Panel.

(** * Further properties of the stream-chat hook *)

Section CacheMore.
Context {Rest : Type}.
Implicit Types (c : ConversationPublic Rest).
Implicit Types (convs : list (ConversationPublic Rest)).
Implicit Types (cache : option (list (ConversationPublic Rest))).
Implicit Types (cid description : option jsstring) (now : jsstring).

Lemma getUpdatedConversations_absent cid description now convs :
  (forall c, c ∈ convs -> Some (id c) <> cid) ->
  getUpdatedConversations cid description now (Some convs) = Some convs.
Proof.
  intros Hfresh. unfold getUpdatedConversations. f_equal.
  induction convs as [|c convs IH]; [done|]. simpl.
  rewrite IH by (intros c' Hc'; apply Hfresh; by right).
  destruct (decide (Some (id c) = cid)) as [Heq|_]; [|done].
  destruct (Hfresh c); [by left | done].
Qed.

(** An id that no cached conversation has: the list comes back as it
    is, nothing is added for the unknown id, and this whatever the
    description and the time.  An absent id ([undefined]) is such an
    id, for every cache. *)
Theorem getUpdatedConversations_unknown_id cid description now convs :
  (forall c, c ∈ convs -> Some (id c) <> cid) ->
  getUpdatedConversations cid description now (Some convs) = Some convs
  /\ getUpdatedConversations None description now (Some convs) = Some convs.
Proof.
  intros Hfresh. split.
  - by apply getUpdatedConversations_absent.
  - apply getUpdatedConversations_absent. by intros c _ [=].
Qed.

(** Of two updates for the same id the later one decides the
    description and the time, whatever the first one wrote; updates for
    different ids can be applied in either order. *)
Theorem getUpdatedConversations_compose cid cid' description description'
    now now' cache :
  getUpdatedConversations cid description' now'
    (getUpdatedConversations cid description now cache)
  = getUpdatedConversations cid description' now' cache
  /\ (cid <> cid' ->
      getUpdatedConversations cid description now
        (getUpdatedConversations cid' description' now' cache)
      = getUpdatedConversations cid' description' now'
          (getUpdatedConversations cid description now cache)).
Proof.
  destruct cache as [convs|]; [|done]. unfold getUpdatedConversations.
  split.
  - f_equal. rewrite map_map. apply map_ext. intros c.
    repeat (case_decide; simpl in * ); congruence.
  - intros Hids. f_equal. rewrite !map_map. apply map_ext. intros c.
    repeat (case_decide; simpl in * ); congruence.
Qed.

End CacheMore.

Lemma getUpdatedConversations_unknown_id_witness :
  getUpdatedConversations (Some [50]) (Some [104; 105]) [110]
    (Some [Conversation [49] None None tt])
  = Some [Conversation [49] None None tt].
Proof.
  apply (getUpdatedConversations_unknown_id (Some [50]) (Some [104; 105])
           [110] [Conversation [49] None None tt]).
  intros c Hc. apply list_elem_of_singleton in Hc. subst c. discriminate.
Defined.

Section ChatMutationProperties.
Context {Rest Payload : Type}.
Variable COMPLETE : jsstring.
Variable JSON_parse : jsstring -> @Parsed Payload.
Variable typeErrorMessage : Nullish -> jsstring.
Variable onRead : @ChatResponse Payload -> option Thrown.

Implicit Types (w : @ChatWorld Rest Payload) (now event_data : jsstring).
Implicit Types (rid : option jsstring) (streamEndData : StreamEnd).

Lemma setConversations_length
    (cid description : option jsstring) now w :
  length <$> conversations
               (setConversations
                  (getUpdatedConversations cid description now) w)
  = length <$> conversations w
  /\ fmap (M := list) id <$> conversations
       (setConversations (getUpdatedConversations cid description now) w)
     = fmap (M := list) id <$> conversations w.
Proof.
  unfold setConversations. simpl.
  destruct (conversations w) as [convs|]; [|done]. simpl. split.
  - by rewrite length_map.
  - f_equal. rewrite <- list_fmap_compose. apply list_fmap_ext.
    intros i c _. simpl. by destruct (decide _).
Qed.

(** A stream end that is not a completed one is an error, the event is
    not handed to [onRead] and the cache is not touched.  When the event
    carries its data and the finish reason is not [COMPLETE] (or is
    missing), [onMessage] throws with the error text of the event, or
    with 'Stream ended unexpectedly' when there is none or it is empty.
    When the event carries no data (it is missing or null), reading the
    finish reason fails and [onMessage] throws with the message of that
    [TypeError]. *)
Theorem onMessage_failed_stream_end rid now event_data w
    (streamEndData : Nullish + StreamEnd) :
  event_data <> [] ->
  JSON_parse event_data = ParseReturns (StreamEndResponse streamEndData) ->
  (forall d, streamEndData = inr d -> se_finish_reason d <> Some COMPLETE) ->
  onMessage COMPLETE JSON_parse typeErrorMessage onRead rid now event_data w
  = (w, Some (match streamEndData with
              | inl nullish => typeErrorMessage nullish
              | inr d =>
                  match se_error d with
                  | Some (c :: message) => c :: message
                  | _ => js "Stream ended unexpectedly"
                  end
              end)).
Proof.
  intros Hdata Hparse Hreason. unfold onMessage.
  destruct event_data; [done|]. simpl JsString.truthy. cbv iota.
  rewrite Hparse. destruct streamEndData as [nullish|d]; [done|].
  rewrite decide_False by (by apply Hreason).
  by destruct (se_error d) as [[|]|].
Qed.

(** A completed stream end for a request that names its conversation:
    the cache is updated by id with the final text before the event is
    handed to [onRead], once; and the update stays when [onRead]
    throws. *)
Theorem onMessage_completed_stream_end rid now event_data w streamEndData :
  event_data <> [] ->
  JSON_parse event_data
  = ParseReturns (StreamEndResponse (inr streamEndData)) ->
  se_finish_reason streamEndData = Some COMPLETE ->
  conversations
    (onMessage COMPLETE JSON_parse typeErrorMessage onRead rid now
       event_data w).1
  = (match rid with
     | Some (_ :: _) =>
         getUpdatedConversations rid (se_text streamEndData) now
           (conversations w)
     | _ => conversations w
     end)
  /\ delivered
       (onMessage COMPLETE JSON_parse typeErrorMessage onRead rid now
       event_data w).1
     = delivered w ++ [StreamEndResponse (inr streamEndData)]
  /\ ((onMessage COMPLETE JSON_parse typeErrorMessage onRead rid now
         event_data w).2 = None
      <-> onRead (StreamEndResponse (inr streamEndData)) = None).
Proof.
  intros Hdata Hparse Hreason. unfold onMessage.
  destruct event_data; [done|]. simpl JsString.truthy. cbv iota.
  rewrite Hparse. rewrite decide_True by done.
  unfold deliver. simpl.
  split; [by destruct rid as [[|]|]|]. split; [by destruct rid as [[|]|]|].
  by destruct (onRead _) as [[]|].
Qed.

(** Whatever the event, [onMessage] keeps the cached list's length and
    ids, hands at most the one decoded event to [onRead], and hands
    nothing over for an event without data or one that does not parse,
    which it also leaves without a trace in the cache. *)
Theorem onMessage_frame rid now event_data w :
  length <$> conversations
               (onMessage COMPLETE JSON_parse typeErrorMessage onRead rid now
       event_data w).1
  = length <$> conversations w
  /\ fmap (M := list) id
       <$> conversations
             (onMessage COMPLETE JSON_parse typeErrorMessage onRead rid now
       event_data w).1
     = fmap (M := list) id <$> conversations w
  /\ (delivered (onMessage COMPLETE JSON_parse typeErrorMessage onRead rid now
       event_data w).1
      = delivered w
      \/ exists data,
           JSON_parse event_data = ParseReturns data
           /\ delivered
                (onMessage COMPLETE JSON_parse typeErrorMessage onRead rid now
       event_data w).1
              = delivered w ++ [data])
  /\ (event_data = []
      \/ (exists message, JSON_parse event_data = ParseThrows message) ->
      (onMessage COMPLETE JSON_parse typeErrorMessage onRead rid now
       event_data w).1 = w).
Proof.
  unfold onMessage.
  destruct event_data as [|c event_data]; simpl JsString.truthy; cbv iota.
  { repeat split; auto. }
  destruct (JSON_parse (c :: event_data))
    as [message|[[nullish|streamEndData]|payload]] eqn:Hparse.
  - repeat split; auto.
  - simpl. split; [done|]. split; [done|]. split; [by left|].
    intros [[=] | [message [=]]].
  - destruct (decide (se_finish_reason streamEndData = Some COMPLETE)).
    + unfold deliver. simpl.
      destruct (JsString.truthy (or_else rid [])).
      * destruct (setConversations_length rid (se_text streamEndData) now w)
          as [Hlen Hids].
        split; [exact Hlen|]. split; [exact Hids|]. split; [by right; eexists|].
        intros [[=] | [message [=]]].
      * split; [done|]. split; [done|]. split; [by right; eexists|].
        intros [[=] | [message [=]]].
    + simpl. split; [done|]. split; [done|]. split; [by left|].
      intros [[=] | [message [=]]].
  - unfold deliver. simpl. split; [done|]. split; [done|].
    split; [by right; eexists|]. intros [[=] | [message [=]]].
Qed.


End ChatMutationProperties.

(** A stream end without its data, for a parser that decodes every
    frame to it and an engine whose [TypeError] message is ['T']. *)
Lemma onMessage_failed_stream_end_witness :
  onMessage (Rest := unit) (Payload := unit) (js "COMPLETE")
    (fun _ => ParseReturns (StreamEndResponse (inl js_undefined)))
    (fun _ => js "T") (fun _ => None) (Some [49]) [110] [123; 125]
    (World None [])
  = (World None [], Some (js "T")).
Proof.
  apply (onMessage_failed_stream_end (Rest := unit) (Payload := unit)
           (js "COMPLETE")
           (fun _ => ParseReturns (StreamEndResponse (inl js_undefined)))
           (fun _ => js "T") (fun _ => None) (Some [49]) [110] [123; 125]
           (World None []) (inl js_undefined)).
  - discriminate.
  - reflexivity.
  - discriminate.
Defined.

(** A stream end with finish reason ['MAX_TOKENS'] and no error text. *)
Example onMessage_max_tokens :
  onMessage (Rest := unit) (Payload := unit) (js "COMPLETE")
    (fun _ => ParseReturns
                (StreamEndResponse
                   (inr (StreamEndData (Some (js "MAX_TOKENS")) None
                                       (Some [104]) None))))
    (fun _ => js "T") (fun _ => None) (Some [49]) [110] [123; 125]
    (World None [])
  = (World None [], Some (js "Stream ended unexpectedly")).
Proof. reflexivity. Qed.

Lemma onMessage_completed_stream_end_witness :
  conversations
    (onMessage (Payload := unit) (js "COMPLETE")
       (fun _ => ParseReturns
                   (StreamEndResponse
                      (inr (StreamEndData (Some (js "COMPLETE")) None
                                          (Some [104]) None))))
       (fun _ => js "T") (fun _ => Some NotAnError) (Some [49]) [110]
       [123; 125] (World (Some [Conversation [49] None None tt]) [])).1
  = getUpdatedConversations (Some [49]) (Some [104]) [110]
      (Some [Conversation [49] None None tt]).
Proof.
  destruct (onMessage_completed_stream_end (Rest := unit) (Payload := unit)
              (js "COMPLETE")
              (fun _ => ParseReturns
                          (StreamEndResponse
                             (inr (StreamEndData (Some (js "COMPLETE")) None
                                                 (Some [104]) None))))
              (fun _ => js "T") (fun _ => Some NotAnError) (Some [49]) [110]
              [123; 125] (World (Some [Conversation [49] None None tt]) [])
              (StreamEndData (Some (js "COMPLETE")) None (Some [104]) None))
    as [Hcache _].
  - discriminate.
  - reflexivity.
  - reflexivity.
  - exact Hcache.
Defined.


(** * Properties of the client *)

Section ClientProperties.

Implicit Types (c : CohereClient) (response : Response).

(** [handleAuthTokenUpdate] replaces the token only by a non-empty
    [X-Toolkit-Auth-Update] header: without the header, or with an empty
    one, the token stays, and it is never cleared.  When the callback is
    installed it is called once per response, with the token then in
    force, also when nothing changed.  Seeing the same response a second
    time changes no token. *)
Theorem handleAuthTokenUpdate_token response c :
  (authToken (CohereClient.handleAuthTokenUpdate response c)
   = match authUpdate response with
     | Some (u :: token) => Some (u :: token)
     | _ => authToken c
     end)
  /\ (is_Some (authToken c) ->
      is_Some (authToken (CohereClient.handleAuthTokenUpdate response c)))
  /\ notified (CohereClient.handleAuthTokenUpdate response c)
     = (if hasAuthTokenUpdate c
        then notified c
             ++ [authToken (CohereClient.handleAuthTokenUpdate response c)]
        else notified c)
  /\ authToken
       (CohereClient.handleAuthTokenUpdate response
          (CohereClient.handleAuthTokenUpdate response c))
     = authToken (CohereClient.handleAuthTokenUpdate response c)
  /\ hostname (CohereClient.handleAuthTokenUpdate response c) = hostname c.
Proof.
  unfold CohereClient.handleAuthTokenUpdate. simpl.
  destruct (authUpdate response) as [[|u token]|]; simpl; repeat split; auto.
Qed.

Lemma js_keys_distinct :
  js "User-Id" <> js "Authorization"
  /\ js "User-Id" <> js "Content-Type"
  /\ js "Authorization" <> js "Content-Type".
Proof. repeat split; discriminate. Qed.

Lemma getHeaders_lookup (omitContentType : bool) c :
  CohereClient.getHeaders omitContentType c !! js "User-Id"
  = Some (js "user-id")
  /\ CohereClient.getHeaders omitContentType c !! js "Authorization"
     = match authToken c with
       | Some (u :: token) => Some (js "Bearer " ++ u :: token)
       | _ => None
       end
  /\ CohereClient.getHeaders omitContentType c !! js "Content-Type"
     = (if omitContentType then None else Some (js "application/json")).
Proof.
  destruct js_keys_distinct as (H1 & H2 & H3).
  unfold CohereClient.getHeaders, CohereClient.spread.
  split; [by rewrite lookup_insert_eq|].
  rewrite !lookup_insert_ne by done. rewrite !lookup_union.
  destruct (authToken c) as [[|u token]|], omitContentType; simpl;
    rewrite ?lookup_empty, ?lookup_singleton_eq, ?lookup_singleton_ne by done;
    by split.
Qed.

(** The headers of a chat request: a header given by the caller wins
    over the client's own; where the caller gives none, [User-Id] is
    ['user-id'], [Content-Type] is ['application/json'], and
    [Authorization] is ['Bearer ' + token] exactly when the client holds a
    non-empty token, and absent otherwise. *)
Theorem chat_headers_lookup (headers : option (gmap jsstring jsstring)) c :
  (forall key value,
     default ∅ headers !! key = Some value ->
     CohereClient.chat_headers headers c !! key = Some value)
  /\ (default ∅ headers !! js "User-Id" = None ->
      CohereClient.chat_headers headers c !! js "User-Id"
      = Some (js "user-id"))
  /\ (default ∅ headers !! js "Content-Type" = None ->
      CohereClient.chat_headers headers c !! js "Content-Type"
      = Some (js "application/json"))
  /\ (default ∅ headers !! js "Authorization" = None ->
      CohereClient.chat_headers headers c !! js "Authorization"
      = match authToken c with
        | Some (u :: token) => Some (js "Bearer " ++ u :: token)
        | _ => None
        end).
Proof.
  destruct (getHeaders_lookup false c) as (Huser & Hauth & Htype).
  unfold CohereClient.chat_headers, CohereClient.spread.
  split.
  { intros key value Hkey. by apply lookup_union_Some_l. }
  repeat split; intros Hnone; rewrite lookup_union_r by done; done.
Qed.

(** [oidcSSOAuth] never keeps the token the server sends: once the
    response body has been read, whatever it is (an object with a
    token, one without, or null), the client's token is cleared,
    whatever the status and the token held before; so the next request
    carries no [Authorization] header.  The callback is not told.  The
    call returns the body exactly when the status is 200, and throws the
    network error otherwise.  Only when the body cannot be read at all
    is the token left as it was. *)
Theorem oidcSSOAuth_clears_token response c (payload : Body) :
  json response = Some payload ->
  authToken (CohereClient.oidcSSOAuth response c).1 = None
  /\ CohereClient.getHeaders false (CohereClient.oidcSSOAuth response c).1
       !! js "Authorization" = None
  /\ notified (CohereClient.oidcSSOAuth response c).1 = notified c
  /\ ((CohereClient.oidcSSOAuth response c).2 = inr payload
      <-> status response = 200)
  /\ (status response <> 200 ->
      (CohereClient.oidcSSOAuth response c).2
      = inl (CohereNetworkError (js "Something went wrong")
                                (status response))).
Proof.
  intros Hjson. unfold CohereClient.oidcSSOAuth. rewrite Hjson.
  destruct (decide (status response = 200)) as [Hok|Hko]; simpl.
  - split; [done|]. split.
    { by destruct (getHeaders_lookup false
                     (Client (hostname c) None (hasAuthTokenUpdate c)
                             (notified c))) as (_ & -> & _). }
    repeat split; auto. done.
  - split; [done|]. split.
    { by destruct (getHeaders_lookup false
                     (Client (hostname c) None (hasAuthTokenUpdate c)
                             (notified c))) as (_ & -> & _). }
    repeat split; auto; done.
Qed.

(** A null body, status 200: the call returns it and the token is
    gone. *)
Lemma oidcSSOAuth_clears_token_witness :
  authToken
    (CohereClient.oidcSSOAuth (HttpResponse 200 None (Some NullBody))
       (Client [104] (Some [111]) true [])).1
  = None.
Proof.
  destruct (oidcSSOAuth_clears_token
              (HttpResponse 200 None (Some NullBody))
              (Client [104] (Some [111]) true []) NullBody)
    as [Hcleared _].
  - reflexivity.
  - exact Hcleared.
Defined.

Example oidcSSOAuth_unreadable_body :
  CohereClient.oidcSSOAuth (HttpResponse 200 None None)
    (Client [104] (Some [111]) true [])
  = (Client [104] (Some [111]) true [], inl JsonError).
Proof. reflexivity. Qed.

(** [googleSSOAuth] stores the token of the response body, whatever the
    status: after a failed exchange (status other than 200) the call
    throws and the client already holds the body's token, or none if the
    body has none.  The callback has been told the token as it stood
    after the header was looked at, not the one of the body. *)
Theorem googleSSOAuth_stores_body_token response c token :
  json response = Some (ObjectBody token) ->
  authToken (CohereClient.googleSSOAuth response c).1 = token
  /\ notified (CohereClient.googleSSOAuth response c).1
     = (if hasAuthTokenUpdate c
        then notified c
             ++ [match authUpdate response with
                 | Some (u :: header) => Some (u :: header)
                 | _ => authToken c
                 end]
        else notified c)
  /\ ((CohereClient.googleSSOAuth response c).2 = inr (ObjectBody token)
      <-> status response = 200)
  /\ (status response <> 200 ->
      (CohereClient.googleSSOAuth response c).2
      = inl (CohereNetworkError (js "Something went wrong")
                                (status response))).
Proof.
  intros Hjson. unfold CohereClient.googleSSOAuth. rewrite Hjson.
  unfold CohereClient.handleAuthTokenUpdate.
  destruct (decide (status response = 200)) as [Hok|Hko]; simpl.
  - split; [done|]. split.
    { by destruct (authUpdate response) as [[|u header]|]. }
    repeat split; auto. done.
  - split; [done|]. split.
    { by destruct (authUpdate response) as [[|u header]|]. }
    repeat split; auto; done.
Qed.

Lemma googleSSOAuth_stores_body_token_witness :
  authToken
    (CohereClient.googleSSOAuth
       (HttpResponse 500 (Some [104]) (Some (ObjectBody None)))
       (Client [104] (Some [111]) true [])).1
  = None.
Proof.
  destruct (googleSSOAuth_stores_body_token
              (HttpResponse 500 (Some [104]) (Some (ObjectBody None)))
              (Client [104] (Some [111]) true []) None) as [Hstored _].
  - reflexivity.
  - exact Hstored.
Defined.

End ClientProperties.
